(** * v1.Hash of go-containerregistry: a shallow embedding of [v1/hash.go]

    The file embeds the content-hash type of package [v1] together with the
    parts of the Go standard library it calls ([strings.Split],
    [strings.TrimLeft], [fmt.Sprintf], [strconv.Unquote], [encoding/json]'s
    string encoder, [unicode/utf8], [crypto/sha256], [encoding/hex] and
    [io.Copy]), and proves the properties of parsing, rendering, JSON
    (de)serialisation and streaming digest computation.

    Conventions.  A Go [string] is a sequence of bytes and is modelled by
    [string] (a list of [ascii], i.e. of 8-bit bytes); a Go [[]byte] is a
    [list ascii].  Fixed-width integers are [Z] with the wrap-around written
    out.  A Go [error] result is an [option error], [None] being [nil].
    Pointer-receiver methods take the receiver's value and return its new
    value. *)

From Stdlib Require Import ZArith List Bool Ascii String Lia.
Import ListNotations.
Local Open Scope string_scope.
Local Open Scope Z_scope.

(** ** Bytes *)

Definition bytes := list ascii.

(** The numeric value of a byte. *)
Definition byte_val (c : ascii) : Z := Z.of_N (N_of_ascii c).

(** Go's conversion [byte(x)]: truncation to the low eight bits. *)
Definition byte_of (z : Z) : ascii := ascii_of_N (Z.to_N (z mod 256)).

(** [string(b)] and [[]byte(s)]. *)
Definition string_of_bytes (b : bytes) : string := string_of_list_ascii b.
Definition bytes_of_string (s : string) : bytes := list_ascii_of_string s.

(** Slicing [s[n:]] and [s[:n]] on strings. *)
Fixpoint string_drop (n : nat) (s : string) : string :=
  match n, s with
  | O, _ => s
  | S _, EmptyString => EmptyString
  | S n', String _ s' => string_drop n' s'
  end.

Fixpoint string_take (n : nat) (s : string) : string :=
  match n, s with
  | O, _ => EmptyString
  | S _, EmptyString => EmptyString
  | S n', String c s' => String c (string_take n' s')
  end.

(** [c] occurs in [s] (the test behind [strings.IndexByte(s, c) >= 0]). *)
Fixpoint contains (s : string) (c : ascii) : bool :=
  match s with
  | EmptyString => false
  | String d s' => Ascii.eqb d c || contains s' c
  end.

(** Every byte of [s] satisfies [p]. *)
Fixpoint string_forallb (p : ascii -> bool) (s : string) : bool :=
  match s with
  | EmptyString => true
  | String c s' => p c && string_forallb p s'
  end.

(** ** unicode/utf8 *)

Module utf8.

Definition RuneError : Z := 65533.    (* U+FFFD *)
Definition RuneSelf : Z := 128.
Definition MaxRune : Z := 1114111.    (* U+10FFFF *)
Definition surrogateMin : Z := 55296. (* 0xD800 *)
Definition surrogateMax : Z := 57343. (* 0xDFFF *)

Definition locb : Z := 128.
Definition hicb : Z := 191.

(** The table [first]: for a leading byte, [None] is the entry [xx]
    (invalid), otherwise the size of the encoding and the range accepted
    for the second byte (the entry of [acceptRanges]).  ASCII bytes are
    handled before the table is consulted. *)
Definition first (s0 : Z) : option (nat * (Z * Z)) :=
  if s0 <? 194 then None                                (* 0x80..0xC1 *)
  else if s0 <? 224 then Some (2%nat, (locb, hicb))     (* s1 *)
  else if s0 =? 224 then Some (3%nat, (160, hicb))      (* s2 *)
  else if s0 <? 237 then Some (3%nat, (locb, hicb))     (* s3 *)
  else if s0 =? 237 then Some (3%nat, (locb, 159))      (* s4 *)
  else if s0 <? 240 then Some (3%nat, (locb, hicb))     (* s3 *)
  else if s0 =? 240 then Some (4%nat, (144, hicb))      (* s5 *)
  else if s0 <? 244 then Some (4%nat, (locb, hicb))     (* s6 *)
  else if s0 =? 244 then Some (4%nat, (locb, 143))      (* s7 *)
  else None.

Definition cont (b : Z) : bool := (locb <=? b) && (b <=? hicb).

(** [utf8.DecodeRuneInString]: the rune at the head of [s] and its width
    in bytes; [(RuneError, 0)] on the empty string and [(RuneError, 1)] on
    an invalid encoding. *)
Definition DecodeRuneInString (s : string) : Z * nat :=
  match s with
  | EmptyString => (RuneError, 0%nat)
  | String c0 t0 =>
      let s0 := byte_val c0 in
      if s0 <? RuneSelf then (s0, 1%nat)
      else
        match first s0 with
        | None => (RuneError, 1%nat)
        | Some (sz, (lo, hi)) =>
            match t0 with
            | EmptyString => (RuneError, 1%nat)
            | String c1 t1 =>
                let s1 := byte_val c1 in
                if (s1 <? lo) || (hi <? s1) then (RuneError, 1%nat)
                else if (sz <=? 2)%nat then
                  (Z.lor (Z.shiftl (Z.land s0 31) 6) (Z.land s1 63), 2%nat)
                else
                  match t1 with
                  | EmptyString => (RuneError, 1%nat)
                  | String c2 t2 =>
                      let s2 := byte_val c2 in
                      if negb (cont s2) then (RuneError, 1%nat)
                      else if (sz <=? 3)%nat then
                        (Z.lor (Z.shiftl (Z.land s0 15) 12)
                           (Z.lor (Z.shiftl (Z.land s1 63) 6) (Z.land s2 63)),
                         3%nat)
                      else
                        match t2 with
                        | EmptyString => (RuneError, 1%nat)
                        | String c3 _ =>
                            let s3 := byte_val c3 in
                            if negb (cont s3) then (RuneError, 1%nat)
                            else
                              (Z.lor (Z.shiftl (Z.land s0 7) 18)
                                 (Z.lor (Z.shiftl (Z.land s1 63) 12)
                                    (Z.lor (Z.shiftl (Z.land s2 63) 6)
                                       (Z.land s3 63))),
                               4%nat)
                        end
                  end
            end
        end
  end.

(** [utf8.ValidRune]. *)
Definition ValidRune (r : Z) : bool :=
  ((0 <=? r) && (r <? surrogateMin)) || ((surrogateMax <? r) && (r <=? MaxRune)).

(** [utf8.EncodeRune], returning the bytes written. *)
Definition EncodeRune (r : Z) : string :=
  if (0 <=? r) && (r <=? 127) then String (byte_of r) ""
  else if (0 <=? r) && (r <=? 2047) then
    String (byte_of (Z.lor 192 (Z.shiftr r 6)))
      (String (byte_of (Z.lor 128 (Z.land r 63))) "")
  else if negb (ValidRune r) then
    String (byte_of 239) (String (byte_of 191) (String (byte_of 189) ""))
  else if r <=? 65535 then
    String (byte_of (Z.lor 224 (Z.shiftr r 12)))
      (String (byte_of (Z.lor 128 (Z.land (Z.shiftr r 6) 63)))
         (String (byte_of (Z.lor 128 (Z.land r 63))) ""))
  else
    String (byte_of (Z.lor 240 (Z.shiftr r 18)))
      (String (byte_of (Z.lor 128 (Z.land (Z.shiftr r 12) 63)))
         (String (byte_of (Z.lor 128 (Z.land (Z.shiftr r 6) 63)))
            (String (byte_of (Z.lor 128 (Z.land r 63))) ""))).

(** [utf8.ValidString]: the loop is run with the length of the string as
    fuel, each step consuming at least one byte. *)
Fixpoint valid_loop (fuel : nat) (s : string) : bool :=
  match s with
  | EmptyString => true
  | String _ _ =>
      match fuel with
      | O => false
      | S fuel' =>
          let (r, size) := DecodeRuneInString s in
          if (r =? RuneError) && (size =? 1)%nat then false
          else valid_loop fuel' (string_drop size s)
      end
  end.

Definition ValidString (s : string) : bool := valid_loop (String.length s) s.

End utf8.

(** ** strings *)

Module strings.

(** [strings.Count(s, sep)] for a separator of one byte. *)
Fixpoint Count (s : string) (sep : ascii) : nat :=
  match s with
  | EmptyString => O
  | String c s' => if Ascii.eqb c sep then S (Count s' sep) else Count s' sep
  end.

(** [strings.IndexByte]: the position of the first [sep], [None] for -1. *)
Fixpoint IndexByte (s : string) (sep : ascii) : option nat :=
  match s with
  | EmptyString => None
  | String c s' =>
      if Ascii.eqb c sep then Some O
      else match IndexByte s' sep with
           | Some m => Some (S m)
           | None => None
           end
  end.

(** The loop of [genSplit]: at most [n] cuts, then the remainder. *)
Fixpoint genSplit_loop (n : nat) (s : string) (sep : ascii) : list string :=
  match n with
  | O => [s]
  | S n' =>
      match IndexByte s sep with
      | None => [s]
      | Some m => string_take m s :: genSplit_loop n' (string_drop (S m) s) sep
      end
  end.

(** [strings.Split(s, sep)], that is [genSplit(s, sep, 0, -1)], for the
    one-byte separator the program passes: [n] is [Count(s, sep) + 1] and
    the loop runs while [i < n - 1]. *)
Definition Split (s : string) (sep : ascii) : list string :=
  genSplit_loop (Count s sep) s sep.

(** [strings.TrimLeft(s, cutset)] for a cutset of ASCII bytes: the leading
    bytes that occur in the cutset are removed.  (A byte of a multi-byte
    rune is never in an ASCII cutset, so trimming stops at it.) *)
Fixpoint TrimLeft (s cutset : string) : string :=
  match s with
  | EmptyString => EmptyString
  | String c s' => if contains cutset c then TrimLeft s' cutset else s
  end.

End strings.

(** ** Errors

    One constructor for each place where [hash.go] makes or forwards an
    error; [Error] renders the message of the [fmt.Errorf] call. *)

Inductive error : Type :=
| ErrTooManyParts (unquoted : string)      (* "too many parts in hash: %s" *)
| ErrNonHexCharacter (c : ascii)           (* "found non-hex character in hash: %c" *)
| ErrWrongNumberOfDigits (hex : string)    (* "wrong number of hex digits for sha256: %s" *)
| ErrUnsupportedHashType (algo : string)   (* "unsupported hash type: %s" *)
| ErrSyntax                                (* strconv.ErrSyntax *)
| EOF                                      (* io.EOF *)
| ErrRead (msg : string).                  (* any other error of a reader *)

(** The verb [%c] applied to a byte prints the code point of that value. *)
Definition Error (e : error) : string :=
  match e with
  | ErrTooManyParts s => "too many parts in hash: " ++ s
  | ErrNonHexCharacter c =>
      "found non-hex character in hash: " ++ utf8.EncodeRune (byte_val c)
  | ErrWrongNumberOfDigits s => "wrong number of hex digits for sha256: " ++ s
  | ErrUnsupportedHashType s => "unsupported hash type: " ++ s
  | ErrSyntax => "invalid syntax"
  | EOF => "EOF"
  | ErrRead msg => msg
  end.

(** The error kinds of the specification (its section 7), and the kind of
    each error of the code. *)
Inductive ErrorKind : Type :=
| InvalidFormat | UnsupportedAlgorithm | MalformedJSON | IOFailure.

Definition kind_of (e : error) : ErrorKind :=
  match e with
  | ErrTooManyParts _ | ErrNonHexCharacter _ | ErrWrongNumberOfDigits _ => InvalidFormat
  | ErrUnsupportedHashType _ => UnsupportedAlgorithm
  | ErrSyntax => MalformedJSON
  | EOF | ErrRead _ => IOFailure
  end.

(** ** The Hash type *)

Record Hash : Type := mkHash { algorithm : string; hex : string }.

(** The zero value [Hash{}]. *)
Definition zeroHash : Hash := mkHash "" "".

Definition Algorithm (h : Hash) : string := algorithm h.

Definition Hex (h : Hash) : string := hex h.

(** [(h Hash) String]: [fmt.Sprintf("%s:%s", h.Algorithm(), h.Hex())].  The
    name carries an underscore because [String] is the constructor of
    strings. *)
Definition String_ (h : Hash) : string := Algorithm h ++ ":" ++ Hex h.

Definition hexdigits : string := "0123456789abcdef".

(** [(h *Hash) parse]: the receiver after the call, and the error. *)
Definition parse (h : Hash) (unquoted : string) : Hash * option error :=
  match strings.Split unquoted ":"%char with
  | [part0; part1] =>
      let rest := strings.TrimLeft part1 hexdigits in
      match rest with
      | String c _ => (h, Some (ErrNonHexCharacter c))
      | EmptyString =>
          if String.eqb part0 "sha256" then
            if negb (String.length part1 =? 64)%nat then
              (h, Some (ErrWrongNumberOfDigits part1))
            else (mkHash part0 part1, None)
          else (h, Some (ErrUnsupportedHashType part0))
      end
  | _ => (h, Some (ErrTooManyParts unquoted))
  end.

Definition NewHash (s : string) : Hash * option error :=
  match parse zeroHash s with
  | (_, Some err) => (zeroHash, Some err)
  | (h, None) => (h, None)
  end.

(** ** Named bytes *)

Definition dquote : ascii := "034"%char.     (* the double quote *)
Definition squote : ascii := "039"%char.     (* the single quote *)
Definition bquote : ascii := "096"%char.     (* the back quote *)
Definition backslash : ascii := "092"%char.
Definition newline : ascii := "010"%char.
Definition creturn : ascii := "013"%char.
Definition tab : ascii := "009"%char.

(** Conversion of an untyped value to [int32] (a [rune]). *)
Definition int32 (z : Z) : Z := (z + 2147483648) mod 4294967296 - 2147483648.

(** ** strconv *)

Module strconv.

(** [unhex]: the value of a hexadecimal digit, of either case. *)
Definition unhex (b : ascii) : option Z :=
  let c := byte_val b in
  if (48 <=? c) && (c <=? 57) then Some (c - 48)
  else if (97 <=? c) && (c <=? 102) then Some (c - 97 + 10)
  else if (65 <=? c) && (c <=? 70) then Some (c - 65 + 10)
  else None.

(** The loop [for j := 0; j < n; j++ { v = v<<4 | x }] over the first [n]
    bytes of [s]; the remaining input is returned with the value. *)
Fixpoint hex_digits (n : nat) (v : Z) (s : string) : option (Z * string) :=
  match n with
  | O => Some (v, s)
  | S n' =>
      match s with
      | EmptyString => None
      | String b s' =>
          match unhex b with
          | None => None
          | Some x => hex_digits n' (int32 (Z.lor (Z.shiftl v 4) x)) s'
          end
      end
  end.

(** The loop over the two further digits of an octal escape. *)
Fixpoint oct_digits (n : nat) (v : Z) (s : string) : option (Z * string) :=
  match n with
  | O => Some (v, s)
  | S n' =>
      match s with
      | EmptyString => None
      | String b s' =>
          let x := byte_val b - 48 in
          if (x <? 0) || (7 <? x) then None
          else oct_digits n' (Z.lor (Z.shiftl v 3) x) s'
      end
  end.

(** [strconv.UnquoteChar(s, quote)]: the value, whether it is a multi-byte
    rune, and the tail; [None] is [ErrSyntax]. *)
Definition UnquoteChar (s : string) (quote : ascii)
  : option (Z * bool * string) :=
  match s with
  | EmptyString => None
  | String c t =>
      if Ascii.eqb c quote && (Ascii.eqb quote squote || Ascii.eqb quote dquote)
      then None
      else if utf8.RuneSelf <=? byte_val c then
        let (r, size) := utf8.DecodeRuneInString s in
        Some (r, true, string_drop size s)
      else if negb (Ascii.eqb c backslash) then Some (byte_val c, false, t)
      else
        match t with
        | EmptyString => None
        | String e s2 =>
            if Ascii.eqb e "a" then Some (7, false, s2)
            else if Ascii.eqb e "b" then Some (8, false, s2)
            else if Ascii.eqb e "f" then Some (12, false, s2)
            else if Ascii.eqb e "n" then Some (10, false, s2)
            else if Ascii.eqb e "r" then Some (13, false, s2)
            else if Ascii.eqb e "t" then Some (9, false, s2)
            else if Ascii.eqb e "v" then Some (11, false, s2)
            else if Ascii.eqb e "x" then
              match hex_digits 2 0 s2 with
              | None => None
              | Some (v, s3) => Some (v, false, s3)
              end
            else if Ascii.eqb e "u" || Ascii.eqb e "U" then
              match hex_digits (if Ascii.eqb e "u" then 4 else 8) 0 s2 with
              | None => None
              | Some (v, s3) =>
                  if utf8.ValidRune v then Some (v, true, s3) else None
              end
            else if (48 <=? byte_val e) && (byte_val e <=? 55) then
              match oct_digits 2 (byte_val e - 48) s2 with
              | None => None
              | Some (v, s3) => if 255 <? v then None else Some (v, false, s3)
              end
            else if Ascii.eqb e backslash then Some (92, false, s2)
            else if Ascii.eqb e squote || Ascii.eqb e dquote then
              if Ascii.eqb e quote then Some (byte_val e, false, s2) else None
            else None
        end
  end.

(** The loop of [unquote] over a literal with escape sequences; it stops
    in front of the closing quote or at the end of the input.  Every turn
    consumes a byte, so the length of the input is enough fuel. *)
Fixpoint unquote_loop (fuel : nat) (quote : ascii) (inp buf : string)
  : option (string * string) :=
  match inp with
  | EmptyString => Some (buf, inp)
  | String c _ =>
      if Ascii.eqb c quote then Some (buf, inp)
      else
        match fuel with
        | O => None
        | S fuel' =>
            match UnquoteChar inp quote with
            | None => None
            | Some (r, multibyte, rem) =>
                if Ascii.eqb c newline then None
                else
                  let buf' :=
                    if (r <? utf8.RuneSelf) || negb multibyte
                    then buf ++ String (byte_of r) ""
                    else buf ++ utf8.EncodeRune r in
                  if Ascii.eqb quote squote then Some (buf', rem)
                  else unquote_loop fuel' quote rem buf'
            end
        end
  end.

(** The bytes of a raw string other than carriage returns. *)
Fixpoint drop_cr (s : string) : string :=
  match s with
  | EmptyString => EmptyString
  | String c s' => if Ascii.eqb c creturn then drop_cr s' else String c (drop_cr s')
  end.

(** [unquote(in, true)]: the unquoted prefix and the remainder; [None] is
    [ErrSyntax]. *)
Definition unquote (inp : string) : option (string * string) :=
  match inp with
  | EmptyString => None
  | String quote tl =>
      match strings.IndexByte tl quote with
      | None => None                       (* covers len(in) < 2 *)
      | Some m =>
          let lit := string_take (S (S m)) inp in    (* in[:end], end = m + 2 *)
          let body := string_take m tl in            (* in[1:end-1] *)
          let rem := string_drop (S (S m)) inp in    (* in[end:] *)
          if Ascii.eqb quote bquote then
            if negb (contains lit creturn) then Some (body, rem)
            else Some (drop_cr body, rem)
          else if Ascii.eqb quote dquote || Ascii.eqb quote squote then
            let simple :=
              negb (contains lit backslash) && negb (contains lit newline) in
            let valid :=
              if Ascii.eqb quote dquote then utf8.ValidString body
              else
                let (r, n) := utf8.DecodeRuneInString body in
                (1 + n + 1 =? S (S m))%nat
                && (negb (r =? utf8.RuneError) || negb (n =? 1)%nat) in
            if simple && valid then Some (body, rem)
            else
              match unquote_loop (String.length tl) quote tl "" with
              | None => None
              | Some (buf, String c rest) =>
                  if Ascii.eqb c quote then Some (buf, rest) else None
              | Some (_, EmptyString) => None
              end
          else None
      end
  end.

(** [strconv.Unquote]. *)
Definition Unquote (s : string) : string * option error :=
  match unquote s with
  | Some (out, EmptyString) => (out, None)
  | _ => ("", Some ErrSyntax)
  end.

End strconv.

(** ** encoding/hex and encoding/json *)

Module hexenc.

(** The digit of [hextable] at index [n] ([n < 16]). *)
Definition hextable (n : Z) : ascii :=
  match String.get (Z.to_nat n) hexdigits with
  | Some c => c
  | None => "0"%char
  end.

(** [hex.EncodeToString]: two digits for each byte, high nibble first. *)
Fixpoint EncodeToString (src : bytes) : string :=
  match src with
  | [] => EmptyString
  | v :: src' =>
      String (hextable (Z.shiftr (byte_val v) 4))
        (String (hextable (Z.land (byte_val v) 15)) (EncodeToString src'))
  end.

End hexenc.

Module json.

(** [htmlSafeSet]: the ASCII bytes that are copied unescaped, namely the
    printable ones other than the double quote, [&], [<], [>] and the
    backslash. *)
Definition htmlSafeSet (b : ascii) : bool :=
  let c := byte_val b in
  (32 <=? c) && (c <=? 127)
  && negb (Ascii.eqb b dquote) && negb (Ascii.eqb b "&")
  && negb (Ascii.eqb b "<") && negb (Ascii.eqb b ">")
  && negb (Ascii.eqb b backslash).

(** The escape written after the backslash for an ASCII byte that is not
    in [htmlSafeSet]. *)
Definition escape (b : ascii) : string :=
  if Ascii.eqb b backslash || Ascii.eqb b dquote then String b ""
  else if Ascii.eqb b newline then "n"
  else if Ascii.eqb b creturn then "r"
  else if Ascii.eqb b tab then "t"
  else
    "u00" ++ String (hexenc.hextable (Z.shiftr (byte_val b) 4))
               (String (hexenc.hextable (Z.land (byte_val b) 15)) "").

(** The body of [encodeState.string(s, escapeHTML = true)] between the two
    quotes.  Every turn consumes a byte, so the length of [s] is enough
    fuel. *)
Fixpoint string_loop (fuel : nat) (s : string) : string :=
  match s with
  | EmptyString => EmptyString
  | String b s' =>
      match fuel with
      | O => EmptyString
      | S fuel' =>
          if byte_val b <? utf8.RuneSelf then
            if htmlSafeSet b then String b (string_loop fuel' s')
            else String backslash (escape b ++ string_loop fuel' s')
          else
            let (c, size) := utf8.DecodeRuneInString s in
            if (c =? utf8.RuneError) && (size =? 1)%nat then
              String backslash ("ufffd" ++ string_loop fuel' (string_drop size s))
            else if (c =? 8232) || (c =? 8233) then
              String backslash
                ("u202" ++ String (hexenc.hextable (Z.land c 15))
                             (string_loop fuel' (string_drop size s)))
            else string_take size s ++ string_loop fuel' (string_drop size s)
      end
  end.

(** [json.Marshal] of a Go string; it cannot fail. *)
Definition Marshal (s : string) : bytes * option error :=
  (bytes_of_string
     (String dquote (string_loop (String.length s) s ++ String dquote "")),
   None).

End json.

(** [(h *Hash) MarshalJSON]. *)
Definition MarshalJSON (h : Hash) : bytes * option error :=
  json.Marshal (String_ h).

(** [(h *Hash) UnmarshalJSON]. *)
Definition UnmarshalJSON (h : Hash) (data : bytes) : Hash * option error :=
  match strconv.Unquote (string_of_bytes data) with
  | (_, Some err) => (h, Some err)
  | (s, None) => parse h s
  end.

(** ** crypto/sha256 *)

Module sha256.

Local Open Scope list_scope.

Definition chunk : nat := 64.
Definition Size : nat := 32.

(** [uint32] arithmetic. *)
Definition uint32 (z : Z) : Z := z mod 4294967296.
Definition add32 (a b : Z) : Z := uint32 (a + b).
(** [bits.RotateLeft32(x, -n)]: rotation to the right by [n]. *)
Definition rotr (n x : Z) : Z :=
  Z.lor (Z.shiftr x n) (uint32 (Z.shiftl x (32 - n))).
(** [^x] on 32 bits. *)
Definition not32 (x : Z) : Z := 4294967295 - x.

Definition words8 : Type := (Z * Z * Z * Z * Z * Z * Z * Z)%type.

Definition init : words8 :=
  (0x6A09E667, 0xBB67AE85, 0x3C6EF372, 0xA54FF53A,
   0x510E527F, 0x9B05688C, 0x1F83D9AB, 0x5BE0CD19).

Definition _K : list Z :=
  [0x428A2F98; 0x71374491; 0xB5C0FBCF; 0xE9B5DBA5; 0x3956C25B; 0x59F111F1;
   0x923F82A4; 0xAB1C5ED5; 0xD807AA98; 0x12835B01; 0x243185BE; 0x550C7DC3;
   0x72BE5D74; 0x80DEB1FE; 0x9BDC06A7; 0xC19BF174; 0xE49B69C1; 0xEFBE4786;
   0x0FC19DC6; 0x240CA1CC; 0x2DE92C6F; 0x4A7484AA; 0x5CB0A9DC; 0x76F988DA;
   0x983E5152; 0xA831C66D; 0xB00327C8; 0xBF597FC7; 0xC6E00BF3; 0xD5A79147;
   0x06CA6351; 0x14292967; 0x27B70A85; 0x2E1B2138; 0x4D2C6DFC; 0x53380D13;
   0x650A7354; 0x766A0ABB; 0x81C2C92E; 0x92722C85; 0xA2BFE8A1; 0xA81A664B;
   0xC24B8B70; 0xC76C51A3; 0xD192E819; 0xD6990624; 0xF40E3585; 0x106AA070;
   0x19A4C116; 0x1E376C08; 0x2748774C; 0x34B0BCB5; 0x391C0CB3; 0x4ED8AA4A;
   0x5B9CCA4F; 0x682E6FF3; 0x748F82EE; 0x78A5636F; 0x84C87814; 0x8CC70208;
   0x90BEFFFA; 0xA4506CEB; 0xBEF9A3F7; 0xC67178F2].

(** The running state: the eight words [h], the buffered bytes [x[:nx]]
    and the length [len] (a [uint64]). *)
Record digest : Type := mkDigest { h : words8; x : bytes; len : Z }.

(** [w[i]] for [i < 16]: the big-endian words of the chunk. *)
Fixpoint load_words (p : bytes) : list Z :=
  match p with
  | b0 :: b1 :: b2 :: b3 :: p' =>
      Z.lor (Z.shiftl (byte_val b0) 24)
        (Z.lor (Z.shiftl (byte_val b1) 16)
           (Z.lor (Z.shiftl (byte_val b2) 8) (byte_val b3)))
      :: load_words p'
  | _ => []
  end.

(** [w[i]] for [16 <= i < 64]; [w] holds the words computed so far. *)
Fixpoint schedule (n : nat) (w : list Z) : list Z :=
  match n with
  | O => w
  | S n' =>
      let i := List.length w in
      let v1 := nth (i - 2) w 0 in
      let t1 := Z.lxor (rotr 17 v1) (Z.lxor (rotr 19 v1) (Z.shiftr v1 10)) in
      let v2 := nth (i - 15) w 0 in
      let t2 := Z.lxor (rotr 7 v2) (Z.lxor (rotr 18 v2) (Z.shiftr v2 3)) in
      schedule n'
        (w ++ [add32 (add32 (add32 t1 (nth (i - 7) w 0)) t2) (nth (i - 16) w 0)])
  end.

(** One turn of the compression loop. *)
Definition round (s : words8) (kw : Z * Z) : words8 :=
  let '(a, b, c, d, e, f, g, hh) := s in
  let (k, w) := kw in
  let t1 :=
    add32 (add32 (add32 (add32 hh
      (Z.lxor (rotr 6 e) (Z.lxor (rotr 11 e) (rotr 25 e))))
      (Z.lxor (Z.land e f) (Z.land (not32 e) g))) k) w in
  let t2 :=
    add32 (Z.lxor (rotr 2 a) (Z.lxor (rotr 13 a) (rotr 22 a)))
      (Z.lxor (Z.land a b) (Z.lxor (Z.land a c) (Z.land b c))) in
  (add32 t1 t2, a, b, c, add32 d t1, e, f, g).

(** The body of the loop of [blockGeneric] on one chunk of 64 bytes. *)
Definition block1 (s : words8) (p : bytes) : words8 :=
  let w := schedule 48 (load_words p) in
  let '(a, b, c, d, e, f, g, hh) := fold_left round (combine _K w) s in
  let '(h0, h1, h2, h3, h4, h5, h6, h7) := s in
  (add32 h0 a, add32 h1 b, add32 h2 c, add32 h3 d,
   add32 h4 e, add32 h5 f, add32 h6 g, add32 h7 hh).

(** [block(dig, p)]: the loop [for len(p) >= chunk]. *)
Fixpoint block (fuel : nat) (s : words8) (p : bytes) : words8 :=
  match fuel with
  | O => s
  | S fuel' =>
      if (chunk <=? List.length p)%nat
      then block fuel' (block1 s (firstn chunk p)) (skipn chunk p)
      else s
  end.

(** [sha256.New()]. *)
Definition New : digest := mkDigest init [] 0.

(** [(d *digest) Write(p)]; it returns [len(p), nil]. *)
Definition Write (d : digest) (p : bytes) : digest :=
  let len' := (len d + Z.of_nat (List.length p)) mod 18446744073709551616 in
  (* if d.nx > 0 *)
  let '(h1, x1, p1) :=
    match x d with
    | [] => (h d, [], p)
    | _ =>
        let n := Nat.min (chunk - List.length (x d)) (List.length p) in
        let xf := x d ++ firstn n p in
        if (List.length xf =? chunk)%nat
        then (block 1 (h d) xf, [], skipn n p)
        else (h d, xf, skipn n p)
    end in
  (* if len(p) >= chunk *)
  let '(h2, p2) :=
    if (chunk <=? List.length p1)%nat then
      let n := (List.length p1 / chunk * chunk)%nat in
      (block (List.length p1) h1 (firstn n p1), skipn n p1)
    else (h1, p1) in
  (* if len(p) > 0 *)
  match p2 with
  | [] => mkDigest h2 x1 len'
  | _ => mkDigest h2 p2 len'
  end.

(** [binary.BigEndian.PutUint32] and [PutUint64]. *)
Definition PutUint32 (v : Z) : bytes :=
  [byte_of (Z.shiftr v 24); byte_of (Z.shiftr v 16); byte_of (Z.shiftr v 8);
   byte_of v].

Definition PutUint64 (v : Z) : bytes :=
  [byte_of (Z.shiftr v 56); byte_of (Z.shiftr v 48); byte_of (Z.shiftr v 40);
   byte_of (Z.shiftr v 32); byte_of (Z.shiftr v 24); byte_of (Z.shiftr v 16);
   byte_of (Z.shiftr v 8); byte_of v].

(** [(d *digest) checkSum()]: padding, length in bits, and the digest. *)
Definition checkSum (d : digest) : bytes :=
  let l := len d in
  let padlen :=
    if l mod 64 <? 56 then Z.to_nat (56 - l mod 64)
    else Z.to_nat (64 + 56 - l mod 64) in
  let d1 := Write d (byte_of 128 :: repeat (byte_of 0) (padlen - 1)) in
  let bits := Z.shiftl l 3 mod 18446744073709551616 in
  let d2 := Write d1 (PutUint64 bits) in
  let '(h0, h1, h2, h3, h4, h5, h6, h7) := h d2 in
  PutUint32 h0 ++ PutUint32 h1 ++ PutUint32 h2 ++ PutUint32 h3 ++
  PutUint32 h4 ++ PutUint32 h5 ++ PutUint32 h6 ++ PutUint32 h7.

(** [(d *digest) Sum(in)]: the digest of a copy of [d], appended to [in]. *)
Definition Sum (d : digest) (inp : bytes) : bytes := inp ++ checkSum d.

End sha256.

(** ** io *)

(** Conversion to [int64]. *)
Definition int64 (z : Z) : Z :=
  (z + 9223372036854775808) mod 18446744073709551616 - 9223372036854775808.

Module io.

Local Open Scope list_scope.

(** What can be observed of a stream: the calls made on it, in order. *)
Inductive event : Type :=
| EvRead (n : nat) (err : option error)
| EvClose.

(** An [io.ReadCloser] whose behaviour is scripted: each call of [Read]
    returns the next entry of [script], the bytes read and the error, and
    [(0, io.EOF)] once the script is exhausted; [Close] returns
    [close_err].  [log] records the calls made so far. *)
Record ReadCloser : Type := mkReadCloser {
  script : list (bytes * option error);
  close_err : option error;
  log : list event
}.

Definition Read (r : ReadCloser) : (bytes * option error) * ReadCloser :=
  match script r with
  | [] =>
      (([], Some EOF),
       mkReadCloser [] (close_err r) (log r ++ [EvRead 0 (Some EOF)]))
  | (buf, er) :: rest =>
      ((buf, er),
       mkReadCloser rest (close_err r) (log r ++ [EvRead (List.length buf) er]))
  end.

Definition Close (r : ReadCloser) : option error * ReadCloser :=
  (close_err r, mkReadCloser (script r) (close_err r) (log r ++ [EvClose])).

Definition is_EOF (e : error) : bool :=
  match e with EOF => true | _ => false end.

(** The loop of [io.Copy(dst, src)] from a source that is read through
    [Read] (it has no [WriteTo]) into a SHA-256 digest (it has no
    [ReadFrom]), whose [Write] accepts all the bytes and returns no error:
    [written] grows by the bytes read, a read error other than [io.EOF] is
    returned, and [io.EOF] ends the copy without error. *)
Fixpoint copy_loop (fuel : nat) (dst : sha256.digest) (src : ReadCloser)
    (written : Z) : sha256.digest * ReadCloser * Z * option error :=
  match fuel with
  | O => (dst, src, written, None)
  | S fuel' =>
      let '((buf, er), src1) := Read src in
      let '(dst1, written1) :=
        if (0 <? List.length buf)%nat
        then (sha256.Write dst buf, int64 (written + Z.of_nat (List.length buf)))
        else (dst, written) in
      match er with
      | Some e => (dst1, src1, written1, if is_EOF e then None else Some e)
      | None => copy_loop fuel' dst1 src1 written1
      end
  end.

(** [io.Copy]: a scripted stream reports [io.EOF] at the latest after its
    last entry, so one turn more than the script has entries suffices. *)
Definition Copy (dst : sha256.digest) (src : ReadCloser)
  : sha256.digest * ReadCloser * Z * option error :=
  copy_loop (S (List.length (script src))) dst src 0.

End io.

(** ** SHA256

    [SHA256(r)] returns the hash, the number of bytes and the error, and
    leaves the stream in the state returned with them; the deferred
    [r.Close()] runs after the result has been determined and before the
    function returns, and its own result is dropped. *)
Definition SHA256 (r : io.ReadCloser)
  : (Hash * Z * option error) * io.ReadCloser :=
  let hasher := sha256.New in
  let '(hasher1, r1, n, err) := io.Copy hasher r in
  let result :=
    match err with
    | Some e => (zeroHash, 0, Some e)
    | None =>
        (mkHash "sha256" (hexenc.EncodeToString (sha256.Sum hasher1 [])), n, None)
    end in
  let (_, r2) := io.Close r1 in
  (result, r2).

(** ** Vocabulary of the properties *)

(** [c] is one of [0123456789abcdef]. *)
Definition is_hexdigit (c : ascii) : bool := contains hexdigits c.

(** [s] consists of characters of [0123456789abcdef] only. *)
Definition lower_hex (s : string) : bool := string_forallb is_hexdigit s.

(** The leftmost character of [s] outside [0123456789abcdef]. *)
Fixpoint first_non_hex (s : string) : option ascii :=
  match s with
  | EmptyString => None
  | String c s' => if is_hexdigit c then first_non_hex s' else Some c
  end.

(** The invariants of a content hash: the algorithm is [sha256], the hex
    part is made of lower-case hexadecimal digits, and it has 64 of them. *)
Definition invariant (v : Hash) : Prop :=
  algorithm v = "sha256"
  /\ lower_hex (hex v) = true
  /\ (algorithm v = "sha256" -> String.length (hex v) = 64%nat).

(** The ways in which the code hands out a hash together with a [nil]
    error. *)
Definition created (v : Hash) : Prop :=
  (exists s, NewHash s = (v, None))
  \/ (exists v0 data, UnmarshalJSON v0 data = (v, None))
  \/ (exists r n r', SHA256 r = (v, n, None, r')).

(** The grammar of a JSON string literal (RFC 8259, section 7), on bytes:
    a double quote, then unescaped bytes from 0x20 up other than the double
    quote and the backslash, or one of the escapes with the backslash, then a
    double quote.  [json_chars] reads what follows the opening quote. *)
Definition is_anyhex (c : ascii) : bool :=
  match strconv.unhex c with Some _ => true | None => false end.

Fixpoint json_chars (s : string) : bool :=
  match s with
  | EmptyString => false
  | String c s' =>
      if Ascii.eqb c dquote then
        match s' with EmptyString => true | _ => false end
      else if Ascii.eqb c backslash then
        match s' with
        | EmptyString => false
        | String e s'' =>
            if contains (String dquote (String backslash "/bfnrt")) e
            then json_chars s''
            else if Ascii.eqb e "u" then
              match s'' with
              | String d1 (String d2 (String d3 (String d4 s4))) =>
                  is_anyhex d1 && is_anyhex d2 && is_anyhex d3 && is_anyhex d4
                  && json_chars s4
              | _ => false
              end
            else false
        end
      else if byte_val c <? 32 then false
      else json_chars s'
  end.

Definition json_string_literal (s : string) : bool :=
  match s with
  | EmptyString => false
  | String c s' => Ascii.eqb c dquote && json_chars s'
  end.

(** The input has at least two bytes, begins with one of the quotes in
    [quotes] and ends with the same byte. *)
Definition delimited (quotes : list ascii) (data : bytes) : Prop :=
  exists q body, In q quotes /\ data = (q :: body ++ [q])%list.

(** The number of [Close] calls recorded in a log. *)
Fixpoint closes (l : list io.event) : nat :=
  match l with
  | [] => O
  | io.EvClose :: l' => S (closes l')
  | io.EvRead _ _ :: l' => closes l'
  end.

Definition is_read (e : io.event) : bool :=
  match e with io.EvRead _ _ => true | io.EvClose => false end.

(** A stream that delivers no byte: every read returns no data, and no
    error other than [io.EOF]. *)
Definition empty_step (st : bytes * option error) : Prop :=
  fst st = [] /\ (snd st = None \/ snd st = Some EOF).

(** The digest of the empty input. *)
Definition empty_sha256 : string :=
  "e3b0c44298fc1c149afbf4c8996fb92427ae41e4649b934ca495991b7852b855".

(** ** The literals of Go

    The grammar of the literals that [strconv.Unquote] is documented to read,
    written without reference to its code. *)

(** The place of [c] in [s], counted from 0. *)
Fixpoint position (c : ascii) (s : string) : option Z :=
  match s with
  | EmptyString => None
  | String d s' =>
      if Ascii.eqb d c then Some 0 else option_map Z.succ (position c s')
  end.


Definition octal_value (c : ascii) : option Z := position c "01234567".













(** ** Vocabulary of the further properties *)

(** A digest state as [Write] leaves it: fewer bytes buffered than a chunk
    has, and a length that fits a [uint64]. *)
Definition wf_digest (d : sha256.digest) : Prop :=
  (List.length (sha256.x d) < sha256.chunk)%nat
  /\ 0 <= sha256.len d < 18446744073709551616.

(** The bytes of [p] behind its last complete chunk. *)
Definition tail_bytes (p : bytes) : bytes :=
  skipn (List.length p / sha256.chunk * sha256.chunk) p.

(** The state reached by absorbing [p]: the complete chunks of the buffered
    bytes followed by [p] are compressed, the others stay in the buffer. *)
Definition absorb (d : sha256.digest) (p : bytes) : sha256.digest :=
  sha256.mkDigest
    (sha256.block (List.length (sha256.x d ++ p)%list) (sha256.h d)
       (sha256.x d ++ p)%list)
    (tail_bytes (sha256.x d ++ p)%list)
    ((sha256.len d + Z.of_nat (List.length p)) mod 18446744073709551616).

(** What the reads of a scripted stream deliver up to the first error,
    [io.EOF] included: the bytes, that error, and the entries left unread.
    A script without error ends in [io.EOF] when it is exhausted. *)
Fixpoint delivered (steps : list (bytes * option error))
  : bytes * error * list (bytes * option error) :=
  match steps with
  | [] => ([], EOF, [])
  | (buf, Some e) :: rest => (buf, e, rest)
  | (buf, None) :: rest =>
      let '(data, e, rest') := delivered rest in ((buf ++ data)%list, e, rest')
  end.

(** The digest of [data] written in one piece, in hexadecimal. *)
Definition sha256_hex (data : bytes) : string :=
  hexenc.EncodeToString (sha256.Sum (sha256.Write sha256.New data) []).

(** * Properties *)

(** ** Strings *)

Section StringFacts.

Lemma append_nil_r (s : string) : s ++ "" = s.
Proof. induction s as [|c s IH]; simpl; [reflexivity | now rewrite IH]. Qed.

Lemma append_assoc (a b c : string) : (a ++ b) ++ c = a ++ (b ++ c).
Proof. induction a as [|x a IH]; simpl; [reflexivity | now rewrite IH]. Qed.

Lemma length_append (a b : string) :
  String.length (a ++ b) = (String.length a + String.length b)%nat.
Proof. induction a as [|x a IH]; simpl; [reflexivity | now rewrite IH]. Qed.

Lemma string_take_drop (n : nat) (s : string) :
  string_take n s ++ string_drop n s = s.
Proof.
  revert s; induction n as [|n IH]; intros [|c s]; simpl; try reflexivity.
  now rewrite IH.
Qed.

Lemma string_take_app (a b : string) :
  string_take (String.length a) (a ++ b) = a.
Proof. induction a as [|x a IH]; simpl; [now destruct b | now rewrite IH]. Qed.


Lemma string_drop_S_app (a b : string) (c : ascii) :
  string_drop (S (String.length a)) (a ++ String c b) = b.
Proof. induction a as [|x a IH]; [reflexivity | exact IH]. Qed.

Lemma string_drop_empty (n : nat) (s : string) :
  string_drop n s = "" -> (String.length s <= n)%nat.
Proof.
  revert s; induction n as [|n IH]; intros [|c s]; simpl; intros H;
    try lia; try discriminate.
  apply IH in H; lia.
Qed.

Lemma string_drop_suffix (n : nat) (s : string) :
  exists pre, s = pre ++ string_drop n s.
Proof. exists (string_take n s); symmetry; apply string_take_drop. Qed.

Lemma string_forallb_app (p : ascii -> bool) (a b : string) :
  string_forallb p (a ++ b) = string_forallb p a && string_forallb p b.
Proof.
  induction a as [|x a IH]; simpl; [reflexivity|].
  now rewrite IH, andb_assoc.
Qed.

Lemma string_forallb_impl (p q : ascii -> bool) (s : string) :
  (forall c, p c = true -> q c = true) ->
  string_forallb p s = true -> string_forallb q s = true.
Proof.
  intros Hpq; induction s as [|c s IH]; simpl; [reflexivity|].
  intros H; apply andb_true_iff in H as [Hc Hs].
  now rewrite (Hpq _ Hc), IH.
Qed.

Lemma contains_app (a b : string) (c : ascii) :
  contains (a ++ b) c = contains a c || contains b c.
Proof.
  induction a as [|x a IH]; simpl; [reflexivity|].
  now rewrite IH, orb_assoc.
Qed.

(** A string whose bytes all avoid [c] does not contain [c]. *)
Lemma contains_forallb (p : ascii -> bool) (s : string) (c : ascii) :
  p c = false -> string_forallb p s = true -> contains s c = false.
Proof.
  intros Hc; induction s as [|d s IH]; simpl; [reflexivity|].
  intros H; apply andb_true_iff in H as [Hd Hs].
  rewrite (IH Hs), orb_false_r.
  destruct (Ascii.eqb_spec d c) as [->|]; [congruence | reflexivity].
Qed.

Lemma string_of_bytes_of_string (s : string) :
  string_of_bytes (bytes_of_string s) = s.
Proof. apply string_of_list_ascii_of_string. Qed.

Lemma bytes_of_string_app (a b : string) :
  bytes_of_string (a ++ b) = (bytes_of_string a ++ bytes_of_string b)%list.
Proof.
  induction a as [|x a IH]; simpl; [reflexivity|].
  unfold bytes_of_string in *; simpl; now rewrite IH.
Qed.

End StringFacts.

(** ** strings.Split and strings.TrimLeft *)

Section SplitFacts.

Variable sep : ascii.

Lemma Count_app (a b : string) :
  strings.Count (a ++ b) sep = (strings.Count a sep + strings.Count b sep)%nat.
Proof.
  induction a as [|x a IH]; simpl; [reflexivity|].
  destruct (Ascii.eqb x sep); simpl; now rewrite IH.
Qed.

Lemma Count_contains (s : string) :
  strings.Count s sep = O <-> contains s sep = false.
Proof.
  induction s as [|c s IH]; simpl; [tauto|].
  destruct (Ascii.eqb c sep); simpl; [split; discriminate | exact IH].
Qed.

Lemma Count_forallb (p : ascii -> bool) (s : string) :
  p sep = false -> string_forallb p s = true -> strings.Count s sep = O.
Proof. intros Hp Hs; apply Count_contains; eapply contains_forallb; eauto. Qed.

Lemma IndexByte_none (s : string) :
  strings.Count s sep = O -> strings.IndexByte s sep = None.
Proof.
  induction s as [|c s IH]; simpl; [reflexivity|].
  destruct (Ascii.eqb c sep); [discriminate|].
  intros H; now rewrite (IH H).
Qed.

Lemma IndexByte_none_inv (s : string) :
  strings.IndexByte s sep = None -> strings.Count s sep = O.
Proof.
  induction s as [|c s IH]; simpl; [reflexivity|].
  destruct (Ascii.eqb c sep); [discriminate|].
  destruct (strings.IndexByte s sep); [discriminate | exact IH].
Qed.

(** The first separator is found behind a prefix that has none. *)
Lemma IndexByte_app (a b : string) :
  strings.Count a sep = O ->
  strings.IndexByte (a ++ String sep b) sep = Some (String.length a).
Proof.
  induction a as [|x a IH]; simpl.
  - now rewrite Ascii.eqb_refl.
  - destruct (Ascii.eqb x sep); [discriminate|].
    intros H; now rewrite (IH H).
Qed.

(** What [IndexByte] finds: the input is cut at a separator, and the part
    in front of it has no separator. *)
Lemma IndexByte_some (s : string) (m : nat) :
  strings.IndexByte s sep = Some m ->
  s = string_take m s ++ String sep (string_drop (S m) s)
  /\ strings.Count (string_take m s) sep = O
  /\ String.length (string_take m s) = m.
Proof.
  revert m; induction s as [|c s IH]; simpl; intros m; [discriminate|].
  destruct (Ascii.eqb_spec c sep) as [->|Hne].
  - intros [= <-]; simpl; auto.
  - destruct (strings.IndexByte s sep) as [k|] eqn:Hk; [|discriminate].
    intros [= <-]; destruct (IH k eq_refl) as (H1 & H2 & H3).
    change (string_take (S k) (String c s)) with (String c (string_take k s)).
    change (string_drop (S (S k)) (String c s)) with (string_drop (S k) s).
    repeat split.
    + change (String c s = String c (string_take k s ++ String sep (string_drop (S k) s))).
      now rewrite <- H1.
    + simpl; destruct (Ascii.eqb_spec c sep); [contradiction | exact H2].
    + simpl; now rewrite H3.
Qed.

Lemma Split_nosep (s : string) :
  strings.Count s sep = O -> strings.Split s sep = [s].
Proof. unfold strings.Split; now intros ->. Qed.

(** Splitting cuts at the first separator and goes on behind it. *)
Lemma Split_app (a b : string) :
  strings.Count a sep = O ->
  strings.Split (a ++ String sep b) sep = a :: strings.Split b sep.
Proof.
  intros Ha; unfold strings.Split.
  assert (Hc : strings.Count (a ++ String sep b) sep = S (strings.Count b sep)).
  { rewrite Count_app, Ha; simpl; now rewrite Ascii.eqb_refl. }
  rewrite Hc; cbn [strings.genSplit_loop].
  rewrite (IndexByte_app a b Ha), string_take_app.
  now rewrite string_drop_S_app.
Qed.

(** [Split] returns one part more than there are separators. *)
Lemma genSplit_loop_length (n : nat) (s : string) :
  (n <= strings.Count s sep)%nat ->
  List.length (strings.genSplit_loop n s sep) = S n.
Proof.
  revert s; induction n as [|n IH]; intros s Hn; simpl; [reflexivity|].
  destruct (strings.IndexByte s sep) as [m|] eqn:Hm.
  - destruct (IndexByte_some s m Hm) as (Hs & Hc & _).
    simpl; f_equal; apply IH.
    rewrite Hs, Count_app, Hc in Hn; simpl in Hn.
    rewrite Ascii.eqb_refl in Hn; lia.
  - apply IndexByte_none_inv in Hm; lia.
Qed.

Lemma Split_length (s : string) :
  List.length (strings.Split s sep) = S (strings.Count s sep).
Proof. apply genSplit_loop_length; lia. Qed.

Lemma genSplit_loop_nonempty (n : nat) (s : string) :
  strings.genSplit_loop n s sep <> [].
Proof.
  destruct n; simpl; [discriminate|].
  destruct (strings.IndexByte s sep); discriminate.
Qed.

(** Two parts are the two sides of the only separator. *)
Lemma genSplit_loop_two (n : nat) (s a b : string) :
  strings.genSplit_loop n s sep = [a; b] -> s = a ++ String sep b.
Proof.
  destruct n as [|n]; cbn [strings.genSplit_loop]; [discriminate|].
  destruct (strings.IndexByte s sep) as [m|] eqn:Hm; [|discriminate].
  destruct (IndexByte_some s m Hm) as (Hs & _ & _).
  destruct n as [|n]; cbn [strings.genSplit_loop].
  - intros [= <- <-]; exact Hs.
  - destruct (strings.IndexByte (string_drop (S m) s) sep).
    + destruct (strings.genSplit_loop n _ sep) eqn:E; [|discriminate].
      now apply genSplit_loop_nonempty in E.
    + intros [= <- <-]; exact Hs.
Qed.

Lemma Split_two (s a b : string) :
  strings.Split s sep = [a; b] ->
  s = a ++ String sep b /\ strings.Count s sep = 1%nat.
Proof.
  intros H; split; [eapply genSplit_loop_two; exact H|].
  pose proof (Split_length s) as HL; rewrite H in HL; simpl in HL; lia.
Qed.

End SplitFacts.

(** ** Hexadecimal digits *)

Section HexFacts.

Lemma colon_not_hexdigit : is_hexdigit ":" = false.
Proof. reflexivity. Qed.

(** The sixteen digits, one by one. *)
Lemma is_hexdigit_cases (c : ascii) :
  is_hexdigit c = true ->
  In c (list_ascii_of_string hexdigits).
Proof.
  unfold is_hexdigit, hexdigits; intros H; cbn [contains] in H.
  cbn [list_ascii_of_string In].
  repeat (apply orb_true_iff in H as [H|H];
          [apply Ascii.eqb_eq in H; tauto|]).
  discriminate.
Qed.

(** A digit is copied as it is by the JSON encoder. *)
Lemma hexdigit_htmlSafe (c : ascii) :
  is_hexdigit c = true -> json.htmlSafeSet c = true.
Proof.
  intros H; apply is_hexdigit_cases in H; simpl in H.
  repeat (destruct H as [<-|H]; [reflexivity|]); contradiction.
Qed.

Lemma first_non_hex_none (s : string) :
  first_non_hex s = None <-> lower_hex s = true.
Proof.
  unfold lower_hex; induction s as [|c s IH]; simpl; [tauto|].
  destruct (is_hexdigit c); simpl; [exact IH | split; discriminate].
Qed.

(** [first_non_hex] finds the leftmost byte that is not a digit. *)
Lemma first_non_hex_some (s : string) (c : ascii) :
  first_non_hex s = Some c ->
  exists pre post,
    s = pre ++ String c post /\ lower_hex pre = true /\ is_hexdigit c = false.
Proof.
  unfold lower_hex; induction s as [|d s IH]; simpl; [discriminate|].
  destruct (is_hexdigit d) eqn:Hd.
  - intros H; destruct (IH H) as (pre & post & -> & Hp & Hc).
    exists (String d pre), post; simpl; now rewrite Hd, Hp.
  - intros [= <-]; exists "", s; auto.
Qed.

(** [TrimLeft] with the digits as cutset stops at that byte. *)
Lemma TrimLeft_first_non_hex (s : string) :
  match first_non_hex s with
  | None => strings.TrimLeft s hexdigits = ""
  | Some c => exists r, strings.TrimLeft s hexdigits = String c r
  end.
Proof.
  induction s as [|d s IH]; [reflexivity|].
  cbn [first_non_hex strings.TrimLeft]; fold (is_hexdigit d).
  destruct (is_hexdigit d); [exact IH | now exists s].
Qed.

End HexFacts.

(** ** parse *)

Section ParseFacts.

Variable v0 : Hash.

(** The result of [parse] on an input with exactly one colon. *)
Lemma parse_two_parts (a b : string) :
  strings.Count a ":" = O -> strings.Count b ":" = O ->
  parse v0 (a ++ ":" ++ b) =
    match first_non_hex b with
    | Some c => (v0, Some (ErrNonHexCharacter c))
    | None =>
        if String.eqb a "sha256" then
          if (String.length b =? 64)%nat then (mkHash a b, None)
          else (v0, Some (ErrWrongNumberOfDigits b))
        else (v0, Some (ErrUnsupportedHashType a))
    end.
Proof.
  intros Ha Hb; unfold parse.
  change (a ++ ":" ++ b) with (a ++ String ":" b).
  rewrite (Split_app ":" a b Ha), (Split_nosep ":" b Hb).
  pose proof (TrimLeft_first_non_hex b) as HT.
  destruct (first_non_hex b) as [c|].
  - destruct HT as [r ->]; reflexivity.
  - rewrite HT; destruct (String.eqb a "sha256"); [|reflexivity].
    destruct (String.length b =? 64)%nat; reflexivity.
Qed.

(** An input without exactly one colon is rejected. *)
Lemma parse_too_many_parts (s : string) :
  strings.Count s ":" <> 1%nat -> parse v0 s = (v0, Some (ErrTooManyParts s)).
Proof.
  intros H; unfold parse.
  pose proof (Split_length ":" s) as HL.
  destruct (strings.Split s ":") as [|a [|b [|c l]]]; simpl in HL;
    try reflexivity; lia.
Qed.

(** What an accepted input looks like. *)
Lemma parse_ok_inv (s : string) (v : Hash) :
  parse v0 s = (v, None) ->
  exists b,
    s = "sha256:" ++ b /\ v = mkHash "sha256" b
    /\ lower_hex b = true /\ String.length b = 64%nat.
Proof.
  unfold parse.
  destruct (strings.Split s ":") as [|a [|b [|c l]]] eqn:HS; try discriminate.
  apply Split_two in HS as [-> _].
  pose proof (TrimLeft_first_non_hex b) as HT.
  destruct (first_non_hex b) as [c|] eqn:Hf.
  - destruct HT as [r ->]; discriminate.
  - rewrite HT.
    destruct (String.eqb_spec a "sha256") as [->|]; [|discriminate].
    destruct (Nat.eqb_spec (String.length b) 64) as [HL|]; [|discriminate].
    simpl; intros [= <-]; exists b.
    repeat split; [now apply first_non_hex_none | exact HL].
Qed.

(** A text with the algorithm [sha256] and 64 digits is accepted. *)
Lemma parse_sha256_ok (h : string) :
  String.length h = 64%nat ->
  lower_hex h = true ->
  parse v0 ("sha256:" ++ h) = (mkHash "sha256" h, None).
Proof.
  intros HL Hh.
  assert (Hc : strings.Count h ":" = O)
    by (eapply Count_forallb; [exact colon_not_hexdigit | exact Hh]).
  change ("sha256:" ++ h) with ("sha256" ++ ":" ++ h).
  rewrite (parse_two_parts "sha256" h eq_refl Hc).
  apply first_non_hex_none in Hh; rewrite Hh, HL; reflexivity.
Qed.

Lemma NewHash_parse (s : string) :
  NewHash s =
    match snd (parse zeroHash s) with
    | Some err => (zeroHash, Some err)
    | None => (fst (parse zeroHash s), None)
    end.
Proof. unfold NewHash; now destruct (parse zeroHash s) as [v [e|]]. Qed.

End ParseFacts.

(** ** Parsing and rendering *)

(** C1.  For every string [h] of exactly 64 characters drawn from
    [0123456789abcdef], parsing ["sha256:" ++ h] succeeds, the resulting hash
    has algorithm ["sha256"] and hex [h], and rendering it back to text
    yields exactly ["sha256:" ++ h]. *)
Theorem parse_render_roundtrip (h : string) (v0 : Hash) :
  String.length h = 64%nat ->
  lower_hex h = true ->
  parse v0 ("sha256:" ++ h) = (mkHash "sha256" h, None)
  /\ NewHash ("sha256:" ++ h) = (mkHash "sha256" h, None)
  /\ Algorithm (fst (NewHash ("sha256:" ++ h))) = "sha256"
  /\ Hex (fst (NewHash ("sha256:" ++ h))) = h
  /\ String_ (fst (NewHash ("sha256:" ++ h))) = "sha256:" ++ h.
Proof.
  intros HL Hh.
  split; [now apply parse_sha256_ok|].
  rewrite NewHash_parse, (parse_sha256_ok zeroHash h HL Hh); cbn [fst snd].
  repeat split.
Qed.

Lemma parse_render_roundtrip_witness :
  parse zeroHash ("sha256:" ++ empty_sha256) = (mkHash "sha256" empty_sha256, None)
  /\ NewHash ("sha256:" ++ empty_sha256) = (mkHash "sha256" empty_sha256, None)
  /\ Algorithm (fst (NewHash ("sha256:" ++ empty_sha256))) = "sha256"
  /\ Hex (fst (NewHash ("sha256:" ++ empty_sha256))) = empty_sha256
  /\ String_ (fst (NewHash ("sha256:" ++ empty_sha256))) = "sha256:" ++ empty_sha256.
Proof.
  apply (parse_render_roundtrip empty_sha256 zeroHash); reflexivity.
Defined.

(** C8.  Every input that does not split on the colon into exactly two
    parts, because it has no colon or two or more of them, is rejected with
    an InvalidFormat error (the parts are one more than the colons). *)
Theorem wrong_number_of_parts_rejected (s : string) (v0 : Hash) :
  strings.Count s ":" <> 1%nat ->
  List.length (strings.Split s ":") = S (strings.Count s ":")
  /\ parse v0 s = (v0, Some (ErrTooManyParts s))
  /\ NewHash s = (zeroHash, Some (ErrTooManyParts s))
  /\ kind_of (ErrTooManyParts s) = InvalidFormat.
Proof.
  intros H; split; [apply Split_length|].
  split; [now apply parse_too_many_parts|].
  split; [|reflexivity].
  now rewrite NewHash_parse, parse_too_many_parts.
Qed.

Lemma wrong_number_of_parts_rejected_witness :
  List.length (strings.Split "sha256:dead:beef" ":") = 3%nat
  /\ parse zeroHash "sha256:dead:beef"
     = (zeroHash, Some (ErrTooManyParts "sha256:dead:beef"))
  /\ NewHash "sha256:dead:beef"
     = (zeroHash, Some (ErrTooManyParts "sha256:dead:beef"))
  /\ kind_of (ErrTooManyParts "sha256:dead:beef") = InvalidFormat.
Proof.
  apply (wrong_number_of_parts_rejected "sha256:dead:beef" zeroHash).
  simpl; lia.
Defined.

(** The claim C3 as it is worded fails: the hex scan comes before the test
    of the algorithm, so a non-hex payload is reported first. *)
Lemma unsupported_algorithm_counterexample :
  "md5" <> "sha256"
  /\ NewHash ("md5" ++ ":" ++ "xyz") = (zeroHash, Some (ErrNonHexCharacter "x"))
  /\ ~ (exists e, snd (NewHash ("md5" ++ ":" ++ "xyz")) = Some e
                  /\ kind_of e = UnsupportedAlgorithm).
Proof.
  split; [discriminate|]; split; [reflexivity|].
  intros (e & He & Hk); cbv in He; injection He as <-; discriminate.
Qed.

(** A text with one colon more than its hex part has. *)
Lemma Count_text (a h : string) :
  strings.Count (a ++ ":" ++ h) ":"
  = (strings.Count a ":" + S (strings.Count h ":"))%nat.
Proof.
  change (a ++ ":" ++ h) with (a ++ String ":" h).
  rewrite Count_app; cbn [strings.Count]; now rewrite Ascii.eqb_refl.
Qed.

(** [byte(rune(b))] is [b], and [%c] of an ASCII byte prints that byte. *)
Lemma byte_of_val (c : ascii) : byte_of (byte_val c) = c.
Proof. destruct c as [[] [] [] [] [] [] [] []]; reflexivity. Qed.

Lemma EncodeRune_ascii (c : ascii) :
  (byte_val c <? utf8.RuneSelf) = true ->
  utf8.EncodeRune (byte_val c) = String c "".
Proof.
  intros H; apply Z.ltb_lt in H; unfold utf8.RuneSelf in H.
  unfold utf8.EncodeRune.
  assert (H0 : 0 <= byte_val c) by (unfold byte_val; lia).
  rewrite (proj2 (Z.leb_le 0 _) H0).
  rewrite (proj2 (Z.leb_le _ 127)) by lia.
  cbn [andb]; now rewrite byte_of_val.
Qed.

(** C3, amended.  For an input [algo ++ ":" ++ rest] whose algorithm is not
    ["sha256"] and has no colon: when [rest] is made of characters of
    [0123456789abcdef] only (whatever its length) parsing fails with
    UnsupportedAlgorithm, naming [algo]; when [rest] has a character outside
    that set, a colon included, parsing fails with InvalidFormat instead,
    the split and the hex scan coming before the test of the algorithm. *)
Theorem unsupported_algorithm_after_hex_scan (algo rest : string) (v0 : Hash) :
  algo <> "sha256" ->
  strings.Count algo ":" = O ->
  exists e,
    parse v0 (algo ++ ":" ++ rest) = (v0, Some e)
    /\ NewHash (algo ++ ":" ++ rest) = (zeroHash, Some e)
    /\ if lower_hex rest
       then e = ErrUnsupportedHashType algo /\ kind_of e = UnsupportedAlgorithm
       else kind_of e = InvalidFormat.
Proof.
  intros Hne Ha.
  assert (Hp : forall v, exists e,
             parse v (algo ++ ":" ++ rest) = (v, Some e)
             /\ (lower_hex rest = true -> e = ErrUnsupportedHashType algo)
             /\ (lower_hex rest = false -> kind_of e = InvalidFormat)).
  { intros v; destruct (strings.Count rest ":") as [|n] eqn:Hr.
    - rewrite (parse_two_parts v algo rest Ha Hr).
      destruct (first_non_hex rest) as [c|] eqn:Hf.
      + eexists; split; [reflexivity|]; split; [|reflexivity].
        intros Hh; apply first_non_hex_none in Hh; congruence.
      + destruct (String.eqb_spec algo "sha256"); [contradiction|].
        eexists; split; [reflexivity|]; split; [reflexivity|].
        intros Hh; apply first_non_hex_none in Hf; congruence.
    - rewrite parse_too_many_parts by (rewrite Count_text, Hr; lia).
      eexists; split; [reflexivity|]; split; [|reflexivity].
      intros Hh.
      rewrite (Count_forallb ":" is_hexdigit rest colon_not_hexdigit Hh) in Hr.
      discriminate. }
  destruct (Hp v0) as (e & He & H1 & H2); exists e; split; [exact He|].
  split.
  - rewrite NewHash_parse.
    destruct (Hp zeroHash) as (e' & He' & H1' & H2'); rewrite He'; cbn [snd].
    f_equal; f_equal.
    revert He He'; clear; unfold parse.
    destruct (strings.Split _ ":") as [|a [|b [|c l]]]; try congruence.
    destruct (strings.TrimLeft b hexdigits); [|congruence].
    destruct (String.eqb a "sha256"); [|congruence].
    destruct (negb _); congruence.
  - destruct (lower_hex rest); [|now apply H2].
    rewrite (H1 eq_refl); split; reflexivity.
Qed.

Lemma unsupported_algorithm_after_hex_scan_witness :
  exists e,
    parse zeroHash ("md5" ++ ":" ++ "0123") = (zeroHash, Some e)
    /\ NewHash ("md5" ++ ":" ++ "0123") = (zeroHash, Some e)
    /\ e = ErrUnsupportedHashType "md5" /\ kind_of e = UnsupportedAlgorithm.
Proof.
  apply (unsupported_algorithm_after_hex_scan "md5" "0123" zeroHash);
    [discriminate | reflexivity].
Defined.

(** The message for a non-hex character names it. *)
Example Error_non_hex :
  option_map Error (snd (NewHash "sha256:xyz"))
  = Some "found non-hex character in hash: x".
Proof. reflexivity. Qed.

(** Where the leftmost offending character is not ASCII, the verb [%c] is
    given its first byte: the message shows the character whose code point
    is that byte (here U+00C3 for a character that begins with the byte
    0xC3), and not the character of the input. *)
Example Error_non_ascii :
  option_map Error
    (snd (NewHash ("sha256:" ++ String (byte_of 195) (String (byte_of 169) ""))))
  = Some ("found non-hex character in hash: "
          ++ String (byte_of 195) (String (byte_of 131) "")).
Proof. reflexivity. Qed.

(** The claim C7 as it is worded fails when the offending character is a
    colon, or stands beside one: the input then has three parts and the error
    carries the whole input, not the character. *)
Lemma non_hex_with_colon_counterexample :
  lower_hex "dead:beef" = false
  /\ first_non_hex "dead:beef" = Some ":"%char
  /\ NewHash ("sha256:" ++ "dead:beef")
     = (zeroHash, Some (ErrTooManyParts "sha256:dead:beef"))
  /\ ~ (exists c, first_non_hex "dead:beef" = Some c
                  /\ snd (NewHash ("sha256:" ++ "dead:beef"))
                     = Some (ErrNonHexCharacter c)).
Proof.
  repeat split; intros (c & _ & H); cbv in H; discriminate.
Qed.

(** C7, amended.  For every ["sha256:" ++ h] where [h] has a character
    outside [0123456789abcdef], parsing fails with an InvalidFormat error;
    when [h] has no colon and the leftmost such character is an ASCII
    character, the message of the error names that character; and when [h]
    has a colon the error is the one for a wrong number of parts, carrying
    the whole input. *)
Theorem non_hex_character_reported (h : string) (v0 : Hash) :
  lower_hex h = false ->
  exists e,
    parse v0 ("sha256:" ++ h) = (v0, Some e)
    /\ NewHash ("sha256:" ++ h) = (zeroHash, Some e)
    /\ kind_of e = InvalidFormat
    /\ if contains h ":" then e = ErrTooManyParts ("sha256:" ++ h)
       else exists c,
           first_non_hex h = Some c
           /\ if byte_val c <? utf8.RuneSelf
              then Error e = "found non-hex character in hash: " ++ String c ""
              else True.
Proof.
  intros Hh.
  assert (Hp : forall v, exists e,
             parse v ("sha256:" ++ h) = (v, Some e)
             /\ if contains h ":" then e = ErrTooManyParts ("sha256:" ++ h)
                else exists c, first_non_hex h = Some c /\ e = ErrNonHexCharacter c).
  { intros v; destruct (contains h ":") eqn:Hc.
    - exists (ErrTooManyParts ("sha256:" ++ h)); split; [|reflexivity].
      apply parse_too_many_parts.
      change ("sha256:" ++ h) with ("sha256" ++ ":" ++ h).
      rewrite Count_text.
      destruct (strings.Count h ":") eqn:Hn; [|simpl; lia].
      apply Count_contains in Hn; congruence.
    - apply Count_contains in Hc.
      change ("sha256:" ++ h) with ("sha256" ++ ":" ++ h).
      rewrite (parse_two_parts v "sha256" h eq_refl Hc).
      destruct (first_non_hex h) as [c|] eqn:Hf.
      + exists (ErrNonHexCharacter c); split; eauto.
      + apply first_non_hex_none in Hf; congruence. }
  destruct (Hp v0) as (e & He & Hm); exists e; split; [exact He|].
  assert (He0 : parse zeroHash ("sha256:" ++ h) = (zeroHash, Some e)).
  { destruct (Hp zeroHash) as (e' & He' & Hm'); rewrite He'.
    destruct (contains h ":"); [now subst|].
    destruct Hm as (c & Hc & ->), Hm' as (c' & Hc' & ->); congruence. }
  split; [now rewrite NewHash_parse, He0|].
  destruct (contains h ":"); [subst e; split; reflexivity|].
  destruct Hm as (c & Hc & ->); split; [reflexivity|].
  exists c; split; [exact Hc|].
  destruct (byte_val c <? utf8.RuneSelf) eqn:Ha; [|exact I].
  cbn [Error]; now rewrite EncodeRune_ascii.
Qed.

Lemma non_hex_character_reported_witness :
  exists e,
    parse zeroHash ("sha256:" ++ "xyz") = (zeroHash, Some e)
    /\ NewHash ("sha256:" ++ "xyz") = (zeroHash, Some e)
    /\ kind_of e = InvalidFormat
    /\ exists c, first_non_hex "xyz" = Some c
                 /\ Error e = "found non-hex character in hash: " ++ String c "".
Proof.
  destruct (non_hex_character_reported "xyz" zeroHash eq_refl)
    as (e & H1 & H2 & H3 & c & H4 & H5).
  exists e; repeat split; try assumption.
  exists c; split; [exact H4|].
  injection H4 as <-; exact H5.
Defined.

(** ** The JSON path *)

Section JSONFacts.

Lemma string_take_all (n : nat) (s : string) :
  (String.length s <= n)%nat -> string_take n s = s.
Proof.
  revert s; induction n as [|n IH]; intros [|c s]; simpl; intros H;
    try reflexivity; try lia.
  rewrite IH; [reflexivity | lia].
Qed.

Lemma string_drop_all (n : nat) (s : string) :
  (String.length s <= n)%nat -> string_drop n s = "".
Proof.
  revert s; induction n as [|n IH]; intros [|c s]; simpl; intros H;
    try reflexivity; try lia.
  apply IH; lia.
Qed.

(** The bytes that the encoder copies are ASCII. *)
Lemma htmlSafe_ascii (b : ascii) :
  json.htmlSafeSet b = true -> (byte_val b <? utf8.RuneSelf) = true.
Proof.
  unfold json.htmlSafeSet, utf8.RuneSelf; intros H.
  do 5 (apply andb_true_iff in H as [H _]).
  apply andb_true_iff in H as [_ H].
  apply Z.leb_le in H; apply Z.ltb_lt; lia.
Qed.

(** A string of such bytes is encoded as itself between two quotes. *)
Lemma string_loop_safe (s : string) (fuel : nat) :
  (String.length s <= fuel)%nat ->
  string_forallb json.htmlSafeSet s = true ->
  json.string_loop fuel s = s.
Proof.
  revert fuel; induction s as [|b s IH]; intros fuel Hf Hs;
    [now destruct fuel|].
  destruct fuel as [|fuel]; [simpl in Hf; lia|].
  simpl in Hs; apply andb_true_iff in Hs as [Hb Hs].
  cbn [json.string_loop]; rewrite (htmlSafe_ascii b Hb), Hb.
  rewrite IH; [reflexivity | simpl in Hf; lia | exact Hs].
Qed.

(** ASCII strings are valid UTF-8. *)
Lemma valid_loop_ascii (s : string) (fuel : nat) :
  (String.length s <= fuel)%nat ->
  string_forallb (fun b => byte_val b <? utf8.RuneSelf) s = true ->
  utf8.valid_loop fuel s = true.
Proof.
  revert fuel; induction s as [|b s IH]; intros fuel Hf Hs;
    [now destruct fuel|].
  destruct fuel as [|fuel]; [simpl in Hf; lia|].
  simpl in Hs; apply andb_true_iff in Hs as [Hb Hs].
  cbn [utf8.valid_loop utf8.DecodeRuneInString]; rewrite Hb.
  assert (He : (byte_val b =? utf8.RuneError) = false).
  { apply Z.eqb_neq; apply Z.ltb_lt in Hb.
    unfold utf8.RuneSelf, utf8.RuneError in *; lia. }
  rewrite He; cbn [andb string_drop].
  apply IH; [simpl in Hf; lia | exact Hs].
Qed.

(** [strconv.Unquote] undoes the quoting of such a string. *)
Lemma Unquote_safe (s : string) :
  string_forallb json.htmlSafeSet s = true ->
  strconv.Unquote (String dquote (s ++ String dquote "")) = (s, None).
Proof.
  intros Hs.
  assert (Hq : strings.Count s dquote = O)
    by (eapply Count_forallb; [|exact Hs]; reflexivity).
  assert (Hlen : String.length (String dquote (s ++ String dquote ""))
                 = S (S (String.length s)))
    by (simpl; rewrite length_append; simpl; lia).
  unfold strconv.Unquote, strconv.unquote.
  rewrite (IndexByte_app dquote s "" Hq); cbv zeta.
  rewrite string_take_app.
  rewrite (string_take_all _ _ (Nat.eq_le_incl _ _ Hlen)).
  rewrite (string_drop_all _ _ (Nat.eq_le_incl _ _ Hlen)).
  replace (Ascii.eqb dquote bquote) with false by reflexivity.
  replace (Ascii.eqb dquote dquote) with true by reflexivity.
  cbn [orb].
  assert (Hc : forall c, json.htmlSafeSet c = false -> Ascii.eqb dquote c = false ->
               contains (String dquote (s ++ String dquote "")) c = false).
  { intros c Hc Hd; cbn [contains]; rewrite Hd, contains_app; cbn [contains].
    rewrite Hd, (contains_forallb _ s c Hc Hs); reflexivity. }
  rewrite (Hc backslash eq_refl eq_refl), (Hc newline eq_refl eq_refl).
  unfold utf8.ValidString; rewrite valid_loop_ascii;
    [reflexivity | lia |].
  eapply string_forallb_impl; [exact htmlSafe_ascii | exact Hs].
Qed.

(** The text of a hash that satisfies the invariants is made of bytes that
    the encoder copies. *)
Lemma String_safe (v : Hash) :
  invariant v -> string_forallb json.htmlSafeSet (String_ v) = true.
Proof.
  intros (Ha & Hh & _); unfold String_, Algorithm, Hex; rewrite Ha.
  rewrite string_forallb_app; apply andb_true_iff; split; [reflexivity|].
  cbn [append string_forallb]; apply andb_true_iff; split; [reflexivity|].
  eapply string_forallb_impl; [exact hexdigit_htmlSafe | exact Hh].
Qed.

End JSONFacts.

(** ** strconv.Unquote *)

(** Case analysis on the next test of the goal. *)
Ltac break_match :=
  match goal with
  | |- context [match ?x with _ => _ end] => destruct x eqn:?
  end.

Lemma DecodeRune_size (s : string) :
  (snd (utf8.DecodeRuneInString s) <= 4)%nat.
Proof.
  unfold utf8.DecodeRuneInString.
  repeat break_match; cbn [snd]; lia.
Qed.

Lemma EncodeRune_length (r : Z) :
  (String.length (utf8.EncodeRune r) <= 4)%nat.
Proof.
  unfold utf8.EncodeRune; repeat break_match; cbn [String.length]; lia.
Qed.

Lemma hex_digits_suffix (n : nat) (v v' : Z) (s s' : string) :
  strconv.hex_digits n v s = Some (v', s') -> exists pre, s = pre ++ s'.
Proof.
  revert v s; induction n as [|n IH]; intros v s; simpl.
  - intros [= _ <-]; now exists "".
  - destruct s as [|b s]; [discriminate|].
    destruct (strconv.unhex b); [|discriminate].
    intros H; apply IH in H as [pre ->]; now exists (String b pre).
Qed.

Lemma oct_digits_suffix (n : nat) (v v' : Z) (s s' : string) :
  strconv.oct_digits n v s = Some (v', s') -> exists pre, s = pre ++ s'.
Proof.
  revert v s; induction n as [|n IH]; intros v s; simpl.
  - intros [= _ <-]; now exists "".
  - destruct s as [|b s]; [discriminate|].
    break_match; [discriminate|].
    intros H; apply IH in H as [pre ->]; now exists (String b pre).
Qed.

Lemma UnquoteChar_suffix (s t : string) (q : ascii) (r : Z) (mb : bool) :
  strconv.UnquoteChar s q = Some (r, mb, t) -> exists pre, s = pre ++ t.
Proof.
  unfold strconv.UnquoteChar.
  destruct s as [|c [|a s2]]; [discriminate| |];
    repeat break_match; try discriminate; intros [= <- <- <-];
    try (now exists (String c ""));
    try (now exists (String c (String a "")));
    try (apply string_drop_suffix).
  all: repeat match goal with
       | H : strconv.hex_digits _ _ _ = Some _ |- _ =>
           apply hex_digits_suffix in H as [pre ->]
       | H : strconv.oct_digits _ _ _ = Some _ |- _ =>
           apply oct_digits_suffix in H as [pre ->]
       end.
  all: try (now exists (String c (String a pre))).
Qed.

Lemma unquote_loop_suffix (fuel : nat) (q : ascii) (inp buf buf' rem : string) :
  strconv.unquote_loop fuel q inp buf = Some (buf', rem) ->
  exists pre, inp = pre ++ rem.
Proof.
  revert inp buf; induction fuel as [|fuel IH]; intros [|c s0] buf;
    cbn [strconv.unquote_loop].
  - intros [= _ <-]; now exists "".
  - destruct (Ascii.eqb c q); [|discriminate].
    intros [= _ <-]; now exists "".
  - intros [= _ <-]; now exists "".
  - destruct (Ascii.eqb c q); [intros [= _ <-]; now exists ""|].
    destruct (strconv.UnquoteChar (String c s0) q) as [[[r mb] t]|] eqn:Hu;
      [|discriminate].
    apply UnquoteChar_suffix in Hu as [pre Hpre].
    destruct (Ascii.eqb c newline); [discriminate|].
    destruct (Ascii.eqb q squote).
    + intros [= _ <-]; now exists pre.
    + intros H; apply IH in H as [pre' ->].
      exists (pre ++ pre'); now rewrite append_assoc.
Qed.

Lemma unquote_loop_squote (fuel : nat) (inp buf buf' rem : string) :
  strconv.unquote_loop fuel squote inp buf = Some (buf', rem) ->
  (String.length buf' <= String.length buf + 4)%nat.
Proof.
  destruct fuel as [|fuel]; destruct inp as [|c s0]; cbn [strconv.unquote_loop].
  - intros [= <- _]; lia.
  - destruct (Ascii.eqb c squote); [|discriminate]. intros [= <- _]; lia.
  - intros [= <- _]; lia.
  - destruct (Ascii.eqb c squote); [intros [= <- _]; lia|].
    destruct (strconv.UnquoteChar (String c s0) squote) as [[[r mb] t]|];
      [|discriminate].
    destruct (Ascii.eqb c newline); [discriminate|].
    rewrite Ascii.eqb_refl.
    intros [= <- _].
    destruct ((r <? utf8.RuneSelf) || negb mb); rewrite length_append.
    + simpl; lia.
    + pose proof (EncodeRune_length r); lia.
Qed.

Lemma string_take_length (n : nat) (s : string) :
  (String.length (string_take n s) <= n)%nat.
Proof.
  revert s; induction n as [|n IH]; intros [|c s]; simpl; try lia.
  specialize (IH s); lia.
Qed.

Lemma drop_cr_length (s : string) :
  (String.length (strconv.drop_cr s) <= String.length s)%nat.
Proof.
  induction s as [|c s IH]; simpl; [lia|].
  destruct (Ascii.eqb c creturn); simpl; lia.
Qed.

(** What [unquote] accepts in full: a literal between two equal quotes. *)
Lemma unquote_inv (inp out : string) :
  strconv.unquote inp = Some (out, "") ->
  exists q body,
    inp = String q (body ++ String q "")
    /\ (q = dquote \/ q = squote \/ q = bquote)
    /\ (q = squote -> (String.length out <= 4)%nat).
Proof.
  unfold strconv.unquote.
  destruct inp as [|q tl]; [discriminate|].
  destruct (strings.IndexByte tl q) as [m|] eqn:Hm; [|discriminate].
  destruct (IndexByte_some q tl m Hm) as (Htl & _ & Hlen).
  cbv zeta.
  change (string_drop (S (S m)) (String q tl)) with (string_drop (S m) tl).
  assert (Hend : string_drop (S m) tl = "" ->
                 String q tl = String q (string_take m tl ++ String q "")).
  { intros E; rewrite E in Htl; now rewrite <- Htl. }
  destruct (Ascii.eqb_spec q bquote) as [->|Hb].
  { destruct (negb _); intros [= <- E];
      exists bquote, (string_take m tl); repeat split; auto; discriminate. }
  destruct (Ascii.eqb_spec q dquote) as [->|Hd].
  { cbn [orb].
    destruct (_ && _).
    - intros [= <- E]; exists dquote, (string_take m tl);
        repeat split; auto; discriminate.
    - destruct (strconv.unquote_loop _ _ _ _) as [[buf [|c rest]]|] eqn:Hl;
        try discriminate.
      destruct (Ascii.eqb_spec c dquote) as [->|]; [|discriminate].
      intros [= <- ->].
      apply unquote_loop_suffix in Hl as [pre ->].
      exists dquote, pre; repeat split; auto; discriminate. }
  destruct (Ascii.eqb_spec q squote) as [->|Hs]; [|discriminate].
  cbn [orb].
  destruct (utf8.DecodeRuneInString (string_take m tl)) as [r n] eqn:Hr.
  destruct (_ && _) eqn:Hv.
  - intros [= <- E]; exists squote, (string_take m tl).
    repeat split; auto.
    intros _.
    apply andb_true_iff in Hv as [_ Hv]; apply andb_true_iff in Hv as [Hv _].
    apply Nat.eqb_eq in Hv.
    pose proof (DecodeRune_size (string_take m tl)) as Hsz; rewrite Hr in Hsz.
    simpl in Hsz; pose proof (string_take_length m tl); lia.
  - destruct (strconv.unquote_loop _ _ _ _) as [[buf [|c rest]]|] eqn:Hl;
      try discriminate.
    destruct (Ascii.eqb_spec c squote) as [->|]; [|discriminate].
    intros [= <- ->].
    pose proof (unquote_loop_squote _ _ _ _ _ Hl) as Hb4.
    apply unquote_loop_suffix in Hl as [pre ->].
    exists squote, pre; repeat split; auto.
Qed.

(** What the encoder writes for a string of copied bytes is a JSON string
    literal. *)
Lemma json_chars_safe (s : string) :
  string_forallb json.htmlSafeSet s = true ->
  json_chars (s ++ String dquote "") = true.
Proof.
  induction s as [|c s IH]; [reflexivity|].
  cbn [string_forallb append json_chars]; intros H.
  apply andb_true_iff in H as [Hc Hs]; rewrite (IH Hs).
  unfold json.htmlSafeSet in Hc.
  do 5 (apply andb_true_iff in Hc as [Hc ?]).
  apply andb_true_iff in Hc as [Hlo _].
  repeat match goal with
         | H : negb (Ascii.eqb c ?d) = true |- _ =>
             apply negb_true_iff in H; try rewrite H; clear H
         end.
  apply Z.leb_le in Hlo.
  destruct (Z.ltb_spec (byte_val c) 32); [lia | reflexivity].
Qed.

(** C4.  For every hash that satisfies the invariants, serialising it to
    JSON succeeds and gives a JSON string literal, the text between double
    quotes, and deserialising the bytes obtained yields a hash with the same
    algorithm and the same hex. *)
Theorem json_roundtrip (v v0 : Hash) :
  invariant v ->
  exists data,
    MarshalJSON v = (data, None)
    /\ data = bytes_of_string (String dquote (String_ v ++ String dquote ""))
    /\ json_string_literal (string_of_bytes data) = true
    /\ snd (UnmarshalJSON v0 data) = None
    /\ Algorithm (fst (UnmarshalJSON v0 data)) = Algorithm v
    /\ Hex (fst (UnmarshalJSON v0 data)) = Hex v.
Proof.
  intros Hv; pose proof (String_safe v Hv) as Hs.
  exists (bytes_of_string (String dquote (String_ v ++ String dquote ""))).
  split.
  { unfold MarshalJSON, json.Marshal.
    rewrite string_loop_safe; [reflexivity | lia | exact Hs]. }
  split; [reflexivity|].
  rewrite string_of_bytes_of_string.
  split.
  { cbn [json_string_literal]; rewrite Ascii.eqb_refl.
    exact (json_chars_safe _ Hs). }
  unfold UnmarshalJSON.
  rewrite string_of_bytes_of_string, (Unquote_safe _ Hs).
  destruct Hv as (Ha & Hh & HL); specialize (HL Ha).
  destruct v as [a hx]; cbn [algorithm hex] in *; subst a.
  unfold String_, Algorithm, Hex; cbn [algorithm hex].
  change ("sha256" ++ ":" ++ hx) with ("sha256:" ++ hx).
  rewrite (parse_sha256_ok v0 hx HL Hh); repeat split.
Qed.

Lemma json_roundtrip_witness :
  exists data,
    MarshalJSON (mkHash "sha256" empty_sha256) = (data, None)
    /\ data = bytes_of_string
                (String dquote (String_ (mkHash "sha256" empty_sha256)
                                ++ String dquote ""))
    /\ json_string_literal (string_of_bytes data) = true
    /\ snd (UnmarshalJSON zeroHash data) = None
    /\ Algorithm (fst (UnmarshalJSON zeroHash data)) = "sha256"
    /\ Hex (fst (UnmarshalJSON zeroHash data)) = empty_sha256.
Proof.
  apply (json_roundtrip (mkHash "sha256" empty_sha256) zeroHash).
  split; [reflexivity | split; [reflexivity | intros _; reflexivity]].
Defined.

(** The bytes of a delimited string. *)
Lemma delimited_of_string (quotes : list ascii) (data : bytes) (q : ascii)
    (body : string) :
  In q quotes ->
  string_of_bytes data = String q (body ++ String q "") ->
  delimited quotes data.
Proof.
  intros Hq H; exists q, (bytes_of_string body); split; [exact Hq|].
  apply (f_equal bytes_of_string) in H.
  unfold bytes_of_string, string_of_bytes in H.
  rewrite list_ascii_of_string_of_list_ascii in H; rewrite H.
  cbn [list_ascii_of_string]; f_equal.
  apply (bytes_of_string_app body (String q "")).
Qed.

(** What an accepted JSON input looks like. *)
Lemma UnmarshalJSON_ok_inv (data : bytes) (v0 v : Hash) :
  UnmarshalJSON v0 data = (v, None) ->
  delimited [dquote; bquote] data /\ invariant v.
Proof.
  unfold UnmarshalJSON, strconv.Unquote.
  destruct (strconv.unquote (string_of_bytes data)) as [[out [|c r]]|] eqn:Hu;
    try discriminate.
  apply unquote_inv in Hu as (q & body & Hd & Hq & H4).
  intros Hp; apply parse_ok_inv in Hp as (b & -> & -> & Hb & HL).
  split; [|split; [reflexivity | split; [exact Hb | intros _; exact HL]]].
  eapply delimited_of_string; [|exact Hd].
  destruct Hq as [ -> | [ -> | -> ] ]; cbn [In]; auto.
  specialize (H4 eq_refl); rewrite length_append, HL in H4; simpl in H4; lia.
Qed.

(** ** The loops run to their end

    The loops that are given fuel never exhaust it: each turn consumes part
    of the input, and fuel beyond the length of the input changes nothing. *)

Lemma string_drop_length (n : nat) (s : string) :
  String.length (string_drop n s) = (String.length s - n)%nat.
Proof.
  revert s; induction n as [|n IH]; intros [|c s]; simpl; try lia.
  apply IH.
Qed.

Lemma DecodeRune_size_pos (c : ascii) (s : string) :
  (1 <= snd (utf8.DecodeRuneInString (String c s)))%nat.
Proof.
  unfold utf8.DecodeRuneInString.
  repeat break_match; cbn [snd]; lia.
Qed.

Lemma hex_digits_shorter (n : nat) (v v' : Z) (s s' : string) :
  strconv.hex_digits n v s = Some (v', s') ->
  (String.length s' <= String.length s)%nat.
Proof.
  intros H; apply hex_digits_suffix in H as [pre ->].
  rewrite length_append; lia.
Qed.

Lemma oct_digits_shorter (n : nat) (v v' : Z) (s s' : string) :
  strconv.oct_digits n v s = Some (v', s') ->
  (String.length s' <= String.length s)%nat.
Proof.
  intros H; apply oct_digits_suffix in H as [pre ->].
  rewrite length_append; lia.
Qed.

(** [UnquoteChar] consumes at least one byte. *)
Lemma UnquoteChar_shorter (s t : string) (q : ascii) (r : Z) (mb : bool) :
  strconv.UnquoteChar s q = Some (r, mb, t) ->
  (String.length t < String.length s)%nat.
Proof.
  unfold strconv.UnquoteChar.
  destruct s as [|c [|a s2]]; [discriminate| |];
    repeat break_match; try discriminate; intros [= <- <- <-];
    repeat match goal with
      | H : strconv.hex_digits _ _ _ = Some _ |- _ =>
          apply hex_digits_shorter in H
      | H : strconv.oct_digits _ _ _ = Some _ |- _ =>
          apply oct_digits_shorter in H
      | H : utf8.DecodeRuneInString (String ?c ?s) = (_, ?n) |- _ =>
          let P := fresh in
          pose proof (DecodeRune_size_pos c s) as P; rewrite H in P;
          cbn [snd] in P; clear H
      end;
    try rewrite string_drop_length; cbn [String.length] in *; lia.
Qed.

(** More fuel than the length of the input changes nothing. *)
Lemma unquote_loop_fuel (f1 f2 : nat) (q : ascii) (inp buf : string) :
  (String.length inp <= f1)%nat -> (String.length inp <= f2)%nat ->
  strconv.unquote_loop f1 q inp buf = strconv.unquote_loop f2 q inp buf.
Proof.
  revert f2 inp buf; induction f1 as [|f1 IH]; intros [|f2] [|c s0] buf H1 H2;
    cbn [String.length] in *; try lia; try reflexivity.
  cbn [strconv.unquote_loop].
  destruct (Ascii.eqb c q); [reflexivity|].
  destruct (strconv.UnquoteChar (String c s0) q) as [[[r mb] t]|] eqn:Hu;
    [|reflexivity].
  apply UnquoteChar_shorter in Hu; cbn [String.length] in Hu.
  destruct (Ascii.eqb c newline); [reflexivity|].
  destruct (Ascii.eqb q squote); [reflexivity|].
  apply IH; lia.
Qed.

Lemma string_loop_fuel (f1 f2 : nat) (s : string) :
  (String.length s <= f1)%nat -> (String.length s <= f2)%nat ->
  json.string_loop f1 s = json.string_loop f2 s.
Proof.
  revert f2 s; induction f1 as [|f1 IH]; intros [|f2] [|b s] H1 H2;
    cbn [String.length] in *; try lia; try reflexivity.
  cbn [json.string_loop].
  pose proof (DecodeRune_size_pos b s) as Hp.
  destruct (utf8.DecodeRuneInString (String b s)) as [c size]; cbn [snd] in Hp.
  assert (Hd : (String.length (string_drop size (String b s)) <= f1
                /\ String.length (string_drop size (String b s)) <= f2)%nat)
    by (rewrite string_drop_length; cbn [String.length]; lia).
  destruct Hd as [Hd1 Hd2].
  rewrite (IH f2 s) by lia.
  rewrite (IH f2 (string_drop size (String b s)) Hd1 Hd2).
  reflexivity.
Qed.

Lemma valid_loop_fuel (f1 f2 : nat) (s : string) :
  (String.length s <= f1)%nat -> (String.length s <= f2)%nat ->
  utf8.valid_loop f1 s = utf8.valid_loop f2 s.
Proof.
  revert f2 s; induction f1 as [|f1 IH]; intros [|f2] [|b s] H1 H2;
    cbn [String.length] in *; try lia; try reflexivity.
  cbn [utf8.valid_loop].
  pose proof (DecodeRune_size_pos b s) as Hp.
  destruct (utf8.DecodeRuneInString (String b s)) as [c size]; cbn [snd] in Hp.
  destruct (_ && _); [reflexivity|].
  apply IH; rewrite string_drop_length; cbn [String.length]; lia.
Qed.

Lemma block_fuel (f1 f2 : nat) (s : sha256.words8) (p : bytes) :
  (Datatypes.length p < sha256.chunk * S f1)%nat ->
  (Datatypes.length p < sha256.chunk * S f2)%nat ->
  sha256.block f1 s p = sha256.block f2 s p.
Proof.
  unfold sha256.chunk.
  revert f2 s p; induction f1 as [|f1 IH]; intros [|f2] s p H1 H2;
    cbn [sha256.block]; unfold sha256.chunk;
    try reflexivity;
    destruct (Nat.leb_spec 64 (Datatypes.length p)); try reflexivity; try lia.
  apply IH; rewrite length_skipn; lia.
Qed.

(** ** The literals that strconv.Unquote reads *)

(** Case analysis on the 256 bytes. *)
Ltac each_byte c :=
  destruct c as [[] [] [] [] [] [] [] []].




Lemma octal_value_bound (c : ascii) (d : Z) :
  octal_value c = Some d -> 0 <= d < 8.
Proof. each_byte c; cbv; intros [= <-]; split; discriminate || reflexivity. Qed.








































(** ** The streaming digest *)

Section StreamFacts.

Local Open Scope list_scope.

(** The copy only reads: it extends the log by read events, and its result
    does not depend on fuel beyond the length of the script. *)
Lemma copy_loop_log (fuel : nat) (dst : sha256.digest) (src : io.ReadCloser)
    (written : Z) :
  exists reads,
    io.log (snd (fst (fst (io.copy_loop fuel dst src written))))
    = io.log src ++ reads
    /\ forallb is_read reads = true
    /\ io.close_err (snd (fst (fst (io.copy_loop fuel dst src written))))
       = io.close_err src.
Proof.
  revert dst src written; induction fuel as [|fuel IH]; intros dst src written.
  - exists []; cbn; now rewrite app_nil_r.
  - cbn [io.copy_loop]; unfold io.Read.
    destruct src as [[|[buf er] rest] ce lg]; cbn [io.script io.log io.close_err].
    + exists [io.EvRead 0 (Some EOF)]; cbn; auto.
    + destruct (0 <? Datatypes.length buf)%nat;
        (destruct er as [e|];
         [ exists [io.EvRead (Datatypes.length buf) (Some e)]; cbn; auto
         | match goal with
           | |- context [io.copy_loop fuel ?d ?s ?w] =>
               destruct (IH d s w) as (reads & Hl & Hr & Hc)
           end;
           exists (io.EvRead (Datatypes.length buf) None :: reads);
           rewrite Hl, Hc; cbn [io.log io.close_err forallb is_read];
           rewrite <- app_assoc; auto ]).
Qed.

Lemma copy_loop_fuel (fuel : nat) (dst : sha256.digest) (src : io.ReadCloser)
    (written : Z) :
  (Datatypes.length (io.script src) < fuel)%nat ->
  io.copy_loop fuel dst src written
  = io.copy_loop (S (Datatypes.length (io.script src))) dst src written.
Proof.
  revert dst src written; induction fuel as [|fuel IH]; intros dst src written Hf;
    [lia|].
  cbn [io.copy_loop]; unfold io.Read.
  destruct src as [[|[buf er] rest] ce lg]; cbn [io.script] in *; [reflexivity|].
  destruct (0 <? Datatypes.length buf)%nat; destruct er as [e|];
    try reflexivity; cbn [Datatypes.length] in Hf;
    rewrite IH by (cbn [io.script]; lia); reflexivity.
Qed.

Lemma closes_app (l1 l2 : list io.event) :
  closes (l1 ++ l2) = (closes l1 + closes l2)%nat.
Proof.
  induction l1 as [|[n e|] l1 IH]; cbn [app closes]; [reflexivity | exact IH|].
  now rewrite IH.
Qed.

Lemma closes_reads (l : list io.event) :
  forallb is_read l = true -> closes l = O.
Proof.
  induction l as [|[n e|] l IH]; cbn; [reflexivity | exact IH | discriminate].
Qed.

(** A stream that delivers no byte is copied without a byte written. *)
Lemma copy_loop_empty (steps : list (bytes * option error)) (ce : option error)
    (lg : list io.event) (dst : sha256.digest) (written : Z) :
  Forall empty_step steps ->
  exists r',
    io.copy_loop (S (Datatypes.length steps)) dst (io.mkReadCloser steps ce lg)
      written
    = (dst, r', written, None).
Proof.
  intros H; revert lg; induction H as [|[buf er] steps [Hb He] _ IH]; intros lg.
  - eexists; reflexivity.
  - cbn [fst snd] in Hb, He; subst buf.
    cbn [Datatypes.length]; cbn [io.copy_loop]; unfold io.Read.
    cbn [io.script io.close_err io.log Datatypes.length Nat.ltb Nat.leb].
    destruct He as [->| ->]; [apply IH | eexists; reflexivity].
Qed.

(** The digits of [hextable] are hexadecimal digits. *)
Lemma hextable_hexdigit (n : Z) : is_hexdigit (hexenc.hextable n) = true.
Proof.
  unfold hexenc.hextable; generalize (Z.to_nat n); intros k.
  do 16 (destruct k as [|k]; [reflexivity|]); reflexivity.
Qed.

Lemma EncodeToString_hex (src : bytes) :
  lower_hex (hexenc.EncodeToString src) = true
  /\ String.length (hexenc.EncodeToString src) = (2 * Datatypes.length src)%nat.
Proof.
  unfold lower_hex; induction src as [|v src [IH1 IH2]]; [split; reflexivity|].
  cbn [hexenc.EncodeToString string_forallb String.length Datatypes.length].
  rewrite !hextable_hexdigit, IH1, IH2; split; [reflexivity | lia].
Qed.

(** A digest has 32 bytes. *)
Lemma Sum_length (d : sha256.digest) :
  Datatypes.length (sha256.Sum d []) = sha256.Size.
Proof.
  unfold sha256.Sum, sha256.checkSum; cbv zeta.
  destruct (sha256.h _) as [[[[[[[h0 h1] h2] h3] h4] h5] h6] h7].
  reflexivity.
Qed.

(** The shape of the result of [SHA256]. *)
Lemma SHA256_result (r : io.ReadCloser) :
  exists d r1 n,
    SHA256 r =
      (match snd (io.Copy sha256.New r) with
       | Some e => (zeroHash, 0, Some e)
       | None =>
           (mkHash "sha256" (hexenc.EncodeToString (sha256.Sum d [])), n, None)
       end,
       snd (io.Close r1))
    /\ io.Copy sha256.New r = (d, r1, n, snd (io.Copy sha256.New r)).
Proof.
  unfold SHA256.
  destruct (io.Copy sha256.New r) as [[[d r1] n] err].
  exists d, r1, n; split; reflexivity.
Qed.

End StreamFacts.

(** The embedded digest on the published test vector for [abc], written in
    one piece and in two. *)
Example sha256_abc :
  hexenc.EncodeToString
    (sha256.Sum (sha256.Write sha256.New (bytes_of_string "abc")) [])
  = "ba7816bf8f01cfea414140de5dae2223b00361a396177a9cb410ff61f20015ad"
  /\ fst (SHA256 (io.mkReadCloser
                    [(bytes_of_string "a", None); (bytes_of_string "bc", None)]
                    None []))
     = (mkHash "sha256"
          "ba7816bf8f01cfea414140de5dae2223b00361a396177a9cb410ff61f20015ad",
        3, None).
Proof. split; vm_compute; reflexivity. Qed.

(** The claim C2 as it is worded fails: the hex string it gives has 63
    characters, the last digit of the digest being left out. *)
Lemma empty_digest_counterexample :
  String.length "e3b0c44298fc1c149afbf4c8996fb92427ae41e4649b934ca495991b7852b85"
  = 63%nat
  /\ fst (SHA256 (io.mkReadCloser [] None []))
     <> (mkHash "sha256"
           "e3b0c44298fc1c149afbf4c8996fb92427ae41e4649b934ca495991b7852b85",
         0, None).
Proof.
  split; [reflexivity|].
  intros H; vm_compute in H; discriminate.
Qed.

(** C2, amended.  The digest computed over a stream that delivers no byte
    has algorithm ["sha256"] and the 64 digits
    [e3b0c44298fc1c149afbf4c8996fb92427ae41e4649b934ca495991b7852b855], with a
    byte count of 0 and no error. *)
Theorem sha256_of_empty_stream (r : io.ReadCloser) :
  Forall empty_step (io.script r) ->
  fst (SHA256 r) = (mkHash "sha256" empty_sha256, 0, None).
Proof.
  intros H; destruct r as [steps ce lg]; cbn [io.script] in H.
  unfold SHA256, io.Copy; cbn [io.script].
  destruct (copy_loop_empty steps ce lg sha256.New 0 H) as [r' ->].
  cbn [fst io.Close]; f_equal; f_equal; vm_compute; reflexivity.
Qed.

Lemma sha256_of_empty_stream_witness :
  fst (SHA256 (io.mkReadCloser [([], None); ([], Some EOF)] None []))
  = (mkHash "sha256" empty_sha256, 0, None).
Proof.
  apply (sha256_of_empty_stream
           (io.mkReadCloser [([], None); ([], Some EOF)] None [])).
  constructor; [split; [reflexivity | left; reflexivity]|].
  constructor; [split; [reflexivity | right; reflexivity]|].
  constructor.
Defined.

(** The claim C5 as it is worded fails: the zero value [Hash{}], which
    [NewHash] and [SHA256] return beside an error, has an empty algorithm. *)
Lemma zero_value_counterexample :
  NewHash "" = (zeroHash, Some (ErrTooManyParts ""))
  /\ fst (fst (fst (SHA256 (io.mkReadCloser [([], Some (ErrRead "closed pipe"))]
                              None []))))
     = zeroHash
  /\ ~ invariant (fst (NewHash "")).
Proof.
  split; [reflexivity|]; split; [reflexivity|].
  intros (H & _); discriminate.
Qed.

(** C5, amended.  Every hash that the code returns with a [nil] error, from
    parsing a text, from JSON deserialisation or from the streaming
    computation, satisfies the invariants: the algorithm is ["sha256"], the
    hex part has only characters of [0123456789abcdef], and there are 64 of
    them. *)
Theorem created_invariant (v : Hash) : created v -> invariant v.
Proof.
  intros [(s & H) | [(v0 & data & H) | (r & n & r' & H)]].
  - rewrite NewHash_parse in H.
    destruct (parse zeroHash s) as [w [e|]] eqn:Hp; cbn [fst snd] in H;
      [discriminate|].
    injection H as ->.
    apply parse_ok_inv in Hp as (b & _ & -> & Hb & HL).
    split; [reflexivity | split; [exact Hb | intros _; exact HL]].
  - exact (proj2 (UnmarshalJSON_ok_inv data v0 v H)).
  - destruct (SHA256_result r) as (d & r1 & m & Hr & _); rewrite Hr in H.
    destruct (snd (io.Copy sha256.New r)); [discriminate|].
    injection H as <- _ _.
    destruct (EncodeToString_hex (sha256.Sum d [])) as [Hh HL].
    rewrite Sum_length in HL.
    split; [reflexivity | split; [exact Hh | intros _; exact HL]].
Qed.

Lemma created_invariant_witness : invariant (mkHash "sha256" empty_sha256).
Proof.
  apply (created_invariant (mkHash "sha256" empty_sha256)).
  left; exists ("sha256:" ++ empty_sha256); reflexivity.
Defined.

(** C6.  The streaming computation closes its input exactly once on every
    path: whatever the reads return, the calls it makes on the stream are
    reads followed by a single [Close], which has happened when the result,
    error or not, is returned. *)
Theorem stream_closed_exactly_once (r : io.ReadCloser) :
  exists reads,
    io.log (snd (SHA256 r)) = (io.log r ++ reads ++ [io.EvClose])%list
    /\ forallb is_read reads = true
    /\ closes (io.log (snd (SHA256 r))) = S (closes (io.log r)).
Proof.
  destruct (SHA256_result r) as (d & r1 & n & Hr & Hc); rewrite Hr; cbn [snd].
  unfold io.Copy in Hc.
  destruct (copy_loop_log (S (Datatypes.length (io.script r))) sha256.New r 0)
    as (reads & Hl & Hreads & _).
  rewrite Hc in Hl; cbn [fst snd] in Hl.
  exists reads; cbn [io.Close snd io.log]; rewrite Hl.
  split; [now rewrite app_assoc|]; split; [exact Hreads|].
  rewrite !closes_app, (closes_reads reads Hreads); cbn; lia.
Qed.

(** C10.  Whenever the streaming computation fails, the byte count it
    returns is 0 and the hash is the zero value, whatever had been read
    before; so a byte count other than 0 comes with no error. *)
Theorem byte_count_zero_on_failure (r : io.ReadCloser) :
  snd (fst (SHA256 r)) <> None ->
  snd (fst (fst (SHA256 r))) = 0 /\ fst (fst (fst (SHA256 r))) = zeroHash.
Proof.
  destruct (SHA256_result r) as (d & r1 & n & -> & _); cbn [fst snd].
  destruct (snd (io.Copy sha256.New r)); cbn [fst snd]; [split; reflexivity|].
  intros H; now contradiction H.
Qed.

Lemma byte_count_zero_on_failure_witness :
  snd (fst (fst (SHA256
    (io.mkReadCloser [(bytes_of_string "abc", None);
                      (bytes_of_string "de", Some (ErrRead "reset"))] None []))))
  = 0
  /\ fst (fst (fst (SHA256
    (io.mkReadCloser [(bytes_of_string "abc", None);
                      (bytes_of_string "de", Some (ErrRead "reset"))] None []))))
     = zeroHash.
Proof.
  apply (byte_count_zero_on_failure
           (io.mkReadCloser [(bytes_of_string "abc", None);
                             (bytes_of_string "de", Some (ErrRead "reset"))]
              None [])).
  vm_compute; discriminate.
Defined.

(** * Further properties *)

(** ** Parsing: lengths, receivers and kinds of errors *)

(** X1.  A text with the algorithm [sha256] whose hex part has only
    characters of [0123456789abcdef], but not 64 of them (none at all
    included), is rejected with the error for a wrong number of digits, an
    InvalidFormat error that carries the hex part. *)
Theorem wrong_length_rejected (h : string) (v0 : Hash) :
  lower_hex h = true ->
  String.length h <> 64%nat ->
  parse v0 ("sha256:" ++ h) = (v0, Some (ErrWrongNumberOfDigits h))
  /\ NewHash ("sha256:" ++ h) = (zeroHash, Some (ErrWrongNumberOfDigits h))
  /\ kind_of (ErrWrongNumberOfDigits h) = InvalidFormat.
Proof.
  intros Hh HL.
  assert (Hc : strings.Count h ":" = O)
    by (eapply Count_forallb; [exact colon_not_hexdigit | exact Hh]).
  assert (Hp : forall v, parse v ("sha256:" ++ h)
                         = (v, Some (ErrWrongNumberOfDigits h))).
  { intros v; change ("sha256:" ++ h) with ("sha256" ++ ":" ++ h).
    rewrite (parse_two_parts v "sha256" h eq_refl Hc).
    apply first_non_hex_none in Hh; rewrite Hh; cbn [String.eqb].
    change ("sha256" =? "sha256")%string with true; cbv iota.
    destruct (Nat.eqb_spec (String.length h) 64); [contradiction | reflexivity]. }
  split; [apply Hp|]; split; [|reflexivity].
  now rewrite NewHash_parse, Hp.
Qed.

Lemma wrong_length_rejected_witness :
  parse zeroHash ("sha256:" ++ "") = (zeroHash, Some (ErrWrongNumberOfDigits ""))
  /\ NewHash ("sha256:" ++ "") = (zeroHash, Some (ErrWrongNumberOfDigits ""))
  /\ kind_of (ErrWrongNumberOfDigits "") = InvalidFormat.
Proof.
  apply (wrong_length_rejected "" zeroHash); [reflexivity | discriminate].
Defined.

(** X2.  [String] reverses [NewHash]: the text that [NewHash] accepts is
    given back by [String] byte for byte, nothing having been trimmed or
    folded; such a text has 71 bytes, its algorithm is [sha256] and its hex
    part has 64 characters of [0123456789abcdef]. *)
Theorem String_reverses_NewHash (s : string) (v : Hash) :
  NewHash s = (v, None) ->
  String_ v = s
  /\ String.length s = 71%nat
  /\ Algorithm v = "sha256"
  /\ String.length (Hex v) = 64%nat
  /\ lower_hex (Hex v) = true.
Proof.
  rewrite NewHash_parse.
  destruct (parse zeroHash s) as [w [e|]] eqn:Hp; cbn [fst snd];
    [discriminate|].
  intros [= <-].
  apply parse_ok_inv in Hp as (b & -> & -> & Hb & HL).
  unfold String_, Algorithm, Hex; cbn [algorithm hex].
  repeat split; try assumption.
  change ("sha256:" ++ b) with ("sha256:" ++ b).
  rewrite length_append, HL; reflexivity.
Qed.

Lemma String_reverses_NewHash_witness :
  String_ (mkHash "sha256" empty_sha256) = "sha256:" ++ empty_sha256
  /\ String.length ("sha256:" ++ empty_sha256) = 71%nat
  /\ Algorithm (mkHash "sha256" empty_sha256) = "sha256"
  /\ String.length (Hex (mkHash "sha256" empty_sha256)) = 64%nat
  /\ lower_hex (Hex (mkHash "sha256" empty_sha256)) = true.
Proof.
  apply (String_reverses_NewHash ("sha256:" ++ empty_sha256)
           (mkHash "sha256" empty_sha256)).
  reflexivity.
Defined.

(** parse either fails and leaves the receiver, or succeeds with a result
    that does not depend on it. *)
Lemma parse_receiver (s : string) (v0 : Hash) :
  (exists e, forall v, parse v s = (v, Some e))
  \/ (exists w, forall v, parse v s = (w, None)).
Proof.
  unfold parse.
  destruct (strings.Split s ":") as [|a [|b [|c l]]];
    try (left; eexists; intros; reflexivity).
  destruct (strings.TrimLeft b hexdigits);
    [|left; eexists; intros; reflexivity].
  destruct (String.eqb a "sha256"); [|left; eexists; intros; reflexivity].
  destruct (negb _); [left | right]; eexists; intros; reflexivity.
Qed.

(** X3.  A failed [UnmarshalJSON] leaves the receiver as it was, and fails
    with the same error on any receiver. *)
Theorem failed_unmarshal_keeps_receiver (data : bytes) (v0 : Hash) :
  snd (UnmarshalJSON v0 data) <> None ->
  fst (UnmarshalJSON v0 data) = v0
  /\ forall v1, UnmarshalJSON v1 data = (v1, snd (UnmarshalJSON v0 data)).
Proof.
  unfold UnmarshalJSON.
  destruct (strconv.Unquote (string_of_bytes data)) as [s [e|]];
    [intros _; split; [reflexivity | intros; reflexivity]|].
  destruct (parse_receiver s v0) as [(e & He) | (w & Hw)].
  - rewrite He; intros _; split; [reflexivity | intros v1; now rewrite He].
  - rewrite Hw; cbn [snd]; intros H; now contradiction H.
Qed.

Lemma failed_unmarshal_keeps_receiver_witness :
  fst (UnmarshalJSON (mkHash "sha256" empty_sha256) (bytes_of_string "null"))
  = mkHash "sha256" empty_sha256
  /\ forall v1, UnmarshalJSON v1 (bytes_of_string "null")
                = (v1, snd (UnmarshalJSON (mkHash "sha256" empty_sha256)
                              (bytes_of_string "null"))).
Proof.
  apply (failed_unmarshal_keeps_receiver (bytes_of_string "null")
           (mkHash "sha256" empty_sha256)).
  vm_compute; discriminate.
Defined.

(** X4.  A successful [UnmarshalJSON] overwrites the receiver: the hash
    obtained does not depend on what the receiver held. *)
Theorem successful_unmarshal_overwrites (data : bytes) (v0 v1 v : Hash) :
  UnmarshalJSON v0 data = (v, None) ->
  UnmarshalJSON v1 data = (v, None).
Proof.
  unfold UnmarshalJSON.
  destruct (strconv.Unquote (string_of_bytes data)) as [s [e|]];
    [discriminate|].
  destruct (parse_receiver s v0) as [(e & He) | (w & Hw)].
  - rewrite He; discriminate.
  - rewrite Hw; intros [= <-]; apply Hw.
Qed.

Lemma successful_unmarshal_overwrites_witness :
  UnmarshalJSON (mkHash "sha256" (String.concat "" (repeat "0f" 32)))
    (bytes_of_string (String dquote ("sha256:" ++ empty_sha256 ++ String dquote "")))
  = (mkHash "sha256" empty_sha256, None).
Proof.
  apply (successful_unmarshal_overwrites
           (bytes_of_string
              (String dquote ("sha256:" ++ empty_sha256 ++ String dquote "")))
           zeroHash (mkHash "sha256" (String.concat "" (repeat "0f" 32)))
           (mkHash "sha256" empty_sha256)).
  reflexivity.
Defined.

(** X5.  An error of [parse] is the error of [NewHash] on the same text,
    and it is an InvalidFormat or an UnsupportedAlgorithm error;
    UnsupportedAlgorithm arises only for a text [algo:rest] whose [algo] is
    not [sha256] and whose [rest] has only characters of
    [0123456789abcdef]. *)
Theorem parse_error_kinds (s : string) (v0 : Hash) (e : error) :
  snd (parse v0 s) = Some e ->
  snd (NewHash s) = Some e
  /\ (kind_of e = InvalidFormat \/ kind_of e = UnsupportedAlgorithm)
  /\ (kind_of e = UnsupportedAlgorithm ->
      exists algo rest, s = algo ++ ":" ++ rest /\ algo <> "sha256"
                        /\ lower_hex rest = true
                        /\ e = ErrUnsupportedHashType algo).
Proof.
  intros H.
  assert (Hn : snd (NewHash s) = Some e).
  { rewrite NewHash_parse.
    destruct (parse_receiver s v0) as [(e' & He) | (w & Hw)].
    - rewrite He in *; cbn [snd] in *; exact H.
    - rewrite Hw in H; discriminate. }
  split; [exact Hn|].
  revert H; unfold parse.
  destruct (strings.Split s ":") as [|a [|b [|c l]]] eqn:HS; cbn [snd];
    try (intros [= <-]; split; [left; reflexivity | discriminate]).
  pose proof (TrimLeft_first_non_hex b) as HT.
  destruct (first_non_hex b) as [c|] eqn:Hf.
  - destruct HT as [r ->]; cbn [snd].
    intros [= <-]; split; [left; reflexivity | discriminate].
  - rewrite HT.
    destruct (String.eqb_spec a "sha256") as [->|Hne].
    + destruct (negb _); cbn [snd]; [|discriminate].
      intros [= <-]; split; [left; reflexivity | discriminate].
    + cbn [snd]; intros [= <-]; split; [right; reflexivity|].
      intros _; exists a, b.
      apply Split_two in HS as [-> _].
      repeat split; [exact Hne | now apply first_non_hex_none].
Qed.

Lemma parse_error_kinds_witness :
  snd (NewHash "md5:0123") = Some (ErrUnsupportedHashType "md5")
  /\ (kind_of (ErrUnsupportedHashType "md5") = InvalidFormat
      \/ kind_of (ErrUnsupportedHashType "md5") = UnsupportedAlgorithm)
  /\ (kind_of (ErrUnsupportedHashType "md5") = UnsupportedAlgorithm ->
      exists algo rest, "md5:0123" = algo ++ ":" ++ rest /\ algo <> "sha256"
                        /\ lower_hex rest = true
                        /\ ErrUnsupportedHashType "md5"
                           = ErrUnsupportedHashType algo).
Proof.
  apply (parse_error_kinds "md5:0123" zeroHash (ErrUnsupportedHashType "md5")).
  reflexivity.
Defined.

Lemma append_cancel (a x y : string) : a ++ x = a ++ y -> x = y.
Proof. induction a as [|c a IH]; simpl; [tauto | intros [= H]; auto]. Qed.

(** X6.  Rendering is injective: two hashes whose algorithms have no colon
    (so any two hashes that satisfy the invariants) and whose texts are equal
    are equal. *)
Theorem String_injective (v1 v2 : Hash) :
  strings.Count (Algorithm v1) ":" = O ->
  strings.Count (Algorithm v2) ":" = O ->
  String_ v1 = String_ v2 ->
  v1 = v2.
Proof.
  destruct v1 as [a1 h1], v2 as [a2 h2]; unfold String_, Algorithm, Hex.
  cbn [algorithm hex]; intros H1 H2 H.
  assert (Ha : a1 = a2).
  { apply (f_equal (fun s => strings.Split s ":")) in H.
    change (a1 ++ ":" ++ h1) with (a1 ++ String ":" h1) in H.
    change (a2 ++ ":" ++ h2) with (a2 ++ String ":" h2) in H.
    rewrite (Split_app ":" a1 h1 H1), (Split_app ":" a2 h2 H2) in H.
    now injection H. }
  subst a2; apply append_cancel in H; injection H as ->; reflexivity.
Qed.

Lemma String_injective_witness :
  fst (NewHash ("sha256:" ++ empty_sha256)) = mkHash "sha256" empty_sha256.
Proof.
  apply (String_injective (fst (NewHash ("sha256:" ++ empty_sha256)))
           (mkHash "sha256" empty_sha256)); reflexivity.
Defined.

(** ** JSON: exact round trip and raw strings *)

(** A hash that satisfies the invariants and its text. *)
Lemma invariant_text (v : Hash) :
  invariant v ->
  exists hx, v = mkHash "sha256" hx /\ String_ v = "sha256:" ++ hx
             /\ lower_hex hx = true /\ String.length hx = 64%nat.
Proof.
  intros (Ha & Hh & HL); specialize (HL Ha).
  destruct v as [a hx]; cbn [algorithm hex] in *; subst a.
  exists hx; repeat split; assumption.
Qed.

(** The exact round trip through JSON. *)
Lemma UnmarshalJSON_MarshalJSON (v v0 : Hash) :
  invariant v -> UnmarshalJSON v0 (fst (MarshalJSON v)) = (v, None).
Proof.
  intros Hv; pose proof (String_safe v Hv) as Hs.
  unfold MarshalJSON, json.Marshal; cbn [fst].
  rewrite string_loop_safe; [|lia | exact Hs].
  unfold UnmarshalJSON.
  rewrite string_of_bytes_of_string, (Unquote_safe _ Hs).
  destruct (invariant_text v Hv) as (hx & -> & -> & Hh & HL).
  apply parse_sha256_ok; assumption.
Qed.

(** A Go raw string without carriage return is unquoted as it is. *)
Lemma Unquote_raw (s : string) :
  contains s bquote = false ->
  contains s creturn = false ->
  strconv.Unquote (String bquote (s ++ String bquote "")) = (s, None).
Proof.
  intros Hb Hc.
  assert (Hq : strings.Count s bquote = O) by now apply Count_contains.
  assert (Hlen : String.length (String bquote (s ++ String bquote ""))
                 = S (S (String.length s)))
    by (simpl; rewrite length_append; simpl; lia).
  unfold strconv.Unquote, strconv.unquote.
  rewrite (IndexByte_app bquote s "" Hq); cbv zeta.
  rewrite string_take_app.
  rewrite (string_take_all _ _ (Nat.eq_le_incl _ _ Hlen)).
  rewrite (string_drop_all _ _ (Nat.eq_le_incl _ _ Hlen)).
  rewrite Ascii.eqb_refl.
  replace (contains (String bquote (s ++ String bquote "")) creturn) with false;
    [reflexivity|].
  cbn [contains]; rewrite contains_app, Hc; reflexivity.
Qed.

(** X7.  [UnmarshalJSON] accepts the text of a hash that satisfies the
    invariants between back quotes, a Go raw string, and yields that hash. *)
Theorem raw_string_accepted (v v0 : Hash) :
  invariant v ->
  UnmarshalJSON v0
    (bytes_of_string (String bquote (String_ v ++ String bquote "")))
  = (v, None).
Proof.
  intros Hv; destruct (invariant_text v Hv) as (hx & -> & Ht & Hh & HL).
  unfold UnmarshalJSON; rewrite string_of_bytes_of_string, Ht.
  assert (Hp : forall c, is_hexdigit c = false ->
                         contains "sha256:" c = false ->
                         contains ("sha256:" ++ hx) c = false).
  { intros c H1 H2; rewrite contains_app, H2.
    exact (contains_forallb is_hexdigit hx c H1 Hh). }
  rewrite Unquote_raw by (apply Hp; reflexivity).
  apply parse_sha256_ok; assumption.
Qed.

Lemma raw_string_accepted_witness :
  UnmarshalJSON zeroHash
    (bytes_of_string
       (String bquote (String_ (mkHash "sha256" empty_sha256) ++ String bquote "")))
  = (mkHash "sha256" empty_sha256, None).
Proof.
  apply (raw_string_accepted (mkHash "sha256" empty_sha256) zeroHash).
  split; [reflexivity | split; [reflexivity | intros _; reflexivity]].
Defined.

(** ** The running digest *)

Section DigestFacts.

Local Open Scope list_scope.

Lemma block_short (f : nat) (s : sha256.words8) (p : bytes) :
  (Datatypes.length p < sha256.chunk)%nat -> sha256.block f s p = s.
Proof.
  intros H; destruct f as [|f]; [reflexivity|]; cbn [sha256.block].
  destruct (Nat.leb_spec sha256.chunk (Datatypes.length p)); [lia | reflexivity].
Qed.

Lemma tail_short (p : bytes) :
  (Datatypes.length p < sha256.chunk)%nat -> tail_bytes p = p.
Proof.
  intros H; unfold tail_bytes.
  rewrite Nat.div_small by exact H; reflexivity.
Qed.

Lemma block_chunk (f : nat) (s : sha256.words8) (c p : bytes) :
  Datatypes.length c = sha256.chunk ->
  (Datatypes.length p < sha256.chunk * S f)%nat ->
  sha256.block (S f) s (c ++ p) = sha256.block f (sha256.block1 s c) p.
Proof.
  intros Hc Hp; cbn [sha256.block].
  rewrite length_app, Hc.
  destruct (Nat.leb_spec sha256.chunk (sha256.chunk + Datatypes.length p)); [|lia].
  rewrite firstn_app, skipn_app, Hc, Nat.sub_diag.
  rewrite firstn_O, skipn_O, app_nil_r.
  rewrite firstn_all2 by lia; rewrite skipn_all2 by lia; reflexivity.
Qed.

Lemma block_chunk_len (s : sha256.words8) (c p : bytes) :
  Datatypes.length c = sha256.chunk ->
  sha256.block (Datatypes.length (c ++ p)) s (c ++ p)
  = sha256.block (Datatypes.length p) (sha256.block1 s c) p.
Proof.
  intros Hc.
  rewrite (block_fuel _ (S (Datatypes.length p)) s (c ++ p)).
  - apply block_chunk; [exact Hc | unfold sha256.chunk; lia].
  - rewrite length_app, Hc; unfold sha256.chunk; lia.
  - rewrite length_app, Hc; unfold sha256.chunk; lia.
Qed.

Lemma tail_chunk (c p : bytes) :
  Datatypes.length c = sha256.chunk -> tail_bytes (c ++ p) = tail_bytes p.
Proof.
  intros Hc; unfold tail_bytes.
  rewrite length_app, Hc.
  replace (sha256.chunk + Datatypes.length p)%nat
    with (1 * sha256.chunk + Datatypes.length p)%nat by lia.
  rewrite Nat.div_add_l by (unfold sha256.chunk; lia).
  rewrite Nat.mul_add_distr_r, Nat.mul_1_l.
  rewrite <- Hc at 1.
  rewrite skipn_app.
  replace (Datatypes.length c + _ - Datatypes.length c)%nat
    with (Datatypes.length p / sha256.chunk * sha256.chunk)%nat by lia.
  rewrite skipn_all2; [reflexivity | lia].
Qed.

Lemma tail_length (p : bytes) :
  (Datatypes.length (tail_bytes p) < sha256.chunk)%nat.
Proof.
  unfold tail_bytes; rewrite length_skipn.
  pose proof (Nat.div_mod_eq (Datatypes.length p) sha256.chunk).
  pose proof (Nat.mod_upper_bound (Datatypes.length p) sha256.chunk).
  unfold sha256.chunk in *; lia.
Qed.

(** Chunk induction *)
Lemma chunk_ind (P : bytes -> Prop) :
  (forall p, (Datatypes.length p < sha256.chunk)%nat -> P p) ->
  (forall c p, Datatypes.length c = sha256.chunk -> P p -> P (c ++ p)) ->
  forall p, P p.
Proof.
  intros Hs Hc p.
  remember (Datatypes.length p) as n eqn:Hn.
  revert p Hn; induction n as [n IH] using lt_wf_ind; intros p Hn.
  destruct (Nat.lt_ge_cases (Datatypes.length p) sha256.chunk) as [H|H];
    [now apply Hs|].
  rewrite <- (firstn_skipn sha256.chunk p).
  apply Hc; [rewrite length_firstn; lia|].
  apply (IH (Datatypes.length (skipn sha256.chunk p))); [|reflexivity].
  rewrite length_skipn; unfold sha256.chunk in *; lia.
Qed.

(** Absorbing the tail of [u] followed by [b] after the chunks of [u] is
    absorbing [u ++ b]. *)
Lemma block_tail_app (u b : bytes) (s : sha256.words8) :
  sha256.block (Datatypes.length (tail_bytes u ++ b))
    (sha256.block (Datatypes.length u) s u) (tail_bytes u ++ b)
  = sha256.block (Datatypes.length (u ++ b)) s (u ++ b)
  /\ tail_bytes (tail_bytes u ++ b) = tail_bytes (u ++ b).
Proof.
  revert s; induction u as [u Hu | c u Hc IH] using chunk_ind; intros s.
  - rewrite (tail_short u Hu), (block_short _ s u Hu); split; reflexivity.
  - rewrite (tail_chunk c u Hc), (block_chunk_len s c u Hc).
    rewrite <- app_assoc, (block_chunk_len s c (u ++ b) Hc).
    rewrite (tail_chunk c (u ++ b) Hc).
    apply IH.
Qed.

(** The bytes behind the last complete chunk are not compressed. *)
Lemma block_ignore_tail (f : nat) (s : sha256.words8) (q t : bytes) :
  (Datatypes.length q mod sha256.chunk = 0)%nat ->
  (Datatypes.length t < sha256.chunk)%nat ->
  sha256.block f s (q ++ t) = sha256.block f s q.
Proof.
  revert s q; induction f as [|f IH]; intros s q Hq Ht; [reflexivity|].
  cbn [sha256.block]; rewrite length_app.
  destruct (Nat.leb_spec sha256.chunk (Datatypes.length q)) as [H|H].
  - destruct (Nat.leb_spec sha256.chunk (Datatypes.length q + Datatypes.length t));
      [|lia].
    rewrite firstn_app, skipn_app.
    replace (sha256.chunk - Datatypes.length q)%nat with O by lia.
    rewrite firstn_O, skipn_O, app_nil_r.
    apply IH; [|exact Ht].
    rewrite length_skipn.
    pose proof (Nat.div_mod_eq (Datatypes.length q) sha256.chunk) as E.
    rewrite Hq, Nat.add_0_r in E.
    replace (Datatypes.length q - sha256.chunk)%nat
      with ((Datatypes.length q / sha256.chunk - 1) * sha256.chunk)%nat
      by (unfold sha256.chunk in *; nia).
    apply Nat.Div0.mod_mul.
  - assert (Hz : Datatypes.length q = O).
    { rewrite Nat.mod_small in Hq by exact H; exact Hq. }
    apply length_zero_iff_nil in Hz; subst q.
    cbn [app Datatypes.length Nat.add].
    rewrite (proj2 (Nat.leb_gt _ _) Ht); reflexivity.
Qed.

Lemma Write_absorb (d : sha256.digest) (p : bytes) :
  wf_digest d -> sha256.Write d p = absorb d p.
Proof.
  intros [Hx Hl]; unfold sha256.Write, absorb.
  destruct d as [h x len]; cbn [sha256.h sha256.x sha256.len] in *.
  assert (Hsplit : forall (s : sha256.words8) (u : bytes),
    (let '(h2, p2) :=
       if (sha256.chunk <=? Datatypes.length u)%nat
       then (sha256.block (Datatypes.length u) s
               (firstn (Datatypes.length u / sha256.chunk * sha256.chunk) u),
             skipn (Datatypes.length u / sha256.chunk * sha256.chunk) u)
       else (s, u) in (h2, p2))
    = (sha256.block (Datatypes.length u) s u, tail_bytes u)).
  { intros s u.
    destruct (Nat.leb_spec sha256.chunk (Datatypes.length u)) as [H|H].
    - f_equal.
      pose proof (block_ignore_tail (Datatypes.length u) s
                    (firstn (Datatypes.length u / sha256.chunk * sha256.chunk) u)
                    (skipn (Datatypes.length u / sha256.chunk * sha256.chunk) u))
        as E.
      rewrite firstn_skipn in E; symmetry; apply E; [|apply tail_length].
      rewrite length_firstn, Nat.min_l
        by (pose proof (Nat.div_mod_eq (Datatypes.length u) sha256.chunk); lia).
      apply Nat.Div0.mod_mul.
    - now rewrite (block_short _ s u H), (tail_short u H). }
  destruct x as [|x0 x].
  - cbn [app].
    match goal with
    | |- (let '(h2, p2) := ?c in _) = _ =>
        destruct c as [h2 p2] eqn:E
    end.
    specialize (Hsplit h p); rewrite E in Hsplit; injection Hsplit as -> ->.
    destruct (tail_bytes p) eqn:Et; reflexivity.
  - set (X := x0 :: x) in *.
    assert (HX : (1 <= Datatypes.length X)%nat) by (cbn; lia).
    cbv zeta.
    destruct (Nat.lt_ge_cases (Datatypes.length X + Datatypes.length p)
                sha256.chunk) as [Hlt|Hge].
    + (* the buffer is not filled *)
      rewrite Nat.min_r by lia.
      rewrite firstn_all, skipn_all.
      rewrite (proj2 (Nat.eqb_neq _ _))
        by (rewrite length_app; unfold sha256.chunk in *; lia).
      cbn [Datatypes.length].
      replace (sha256.chunk <=? 0)%nat with false by reflexivity.
      rewrite block_short, tail_short by (rewrite length_app; lia).
      reflexivity.
    + (* the buffer is filled and compressed *)
      rewrite Nat.min_l by lia.
      set (n := (sha256.chunk - Datatypes.length X)%nat).
      set (xf := X ++ firstn n p).
      assert (Hxf : Datatypes.length xf = sha256.chunk).
      { unfold xf; rewrite length_app, length_firstn; lia. }
      rewrite (proj2 (Nat.eqb_eq _ _) Hxf).
      match goal with
      | |- (let '(h2, p2) := ?c in _) = _ => destruct c as [h2 p2] eqn:E
      end.
      specialize (Hsplit (sha256.block 1 h xf) (skipn n p)).
      rewrite E in Hsplit; cbv beta iota in Hsplit.
      apply pair_equal_spec in Hsplit as [-> ->].
      assert (Happ : X ++ p = xf ++ skipn n p).
      { unfold xf; now rewrite <- app_assoc, firstn_skipn. }
      rewrite Happ, (block_chunk_len h xf (skipn n p) Hxf),
        (tail_chunk xf (skipn n p) Hxf).
      assert (Hb1 : sha256.block 1 h xf = sha256.block1 h xf).
      { cbn [sha256.block].
        rewrite (proj2 (Nat.leb_le _ _)) by lia.
        now rewrite firstn_all2 by lia. }
      rewrite Hb1.
      destruct (tail_bytes (skipn n p)); reflexivity.
Qed.

Lemma absorb_wf (d : sha256.digest) (p : bytes) : wf_digest (absorb d p).
Proof.
  split; cbn [absorb sha256.x sha256.len]; [apply tail_length|].
  apply Z.mod_pos_bound; lia.
Qed.

Lemma New_wf : wf_digest sha256.New.
Proof. split; cbn; [unfold sha256.chunk; lia | lia]. Qed.

(** Writing in two pieces is writing the whole. *)
Lemma Write_app (d : sha256.digest) (a b : bytes) :
  wf_digest d ->
  sha256.Write (sha256.Write d a) b = sha256.Write d (a ++ b).
Proof.
  intros Hd.
  rewrite (Write_absorb d a Hd), (Write_absorb _ b (absorb_wf d a)),
    (Write_absorb d (a ++ b) Hd).
  unfold absorb; cbn [sha256.h sha256.x sha256.len].
  destruct (block_tail_app (sha256.x d ++ a) b (sha256.h d)) as [Hb Ht].
  rewrite Hb, Ht, <- !app_assoc; f_equal.
  rewrite length_app, Nat2Z.inj_add, Zplus_mod_idemp_l; f_equal; lia.
Qed.

Lemma Write_nil (d : sha256.digest) : wf_digest d -> sha256.Write d [] = d.
Proof.
  intros Hd; rewrite (Write_absorb d [] Hd); destruct Hd as [Hx Hl].
  destruct d as [h x len]; unfold absorb; cbn [sha256.h sha256.x sha256.len] in *.
  rewrite app_nil_r, block_short, tail_short by exact Hx.
  cbn [Datatypes.length]; rewrite Z.add_0_r, Z.mod_small by lia; reflexivity.
Qed.

Lemma int64_small (z : Z) :
  -9223372036854775808 <= z < 9223372036854775808 -> int64 z = z.
Proof. intros H; unfold int64; rewrite Z.mod_small; lia. Qed.

Lemma Write_wf (d : sha256.digest) (p : bytes) :
  wf_digest d -> wf_digest (sha256.Write d p).
Proof. intros Hd; rewrite (Write_absorb d p Hd); apply absorb_wf. Qed.

(** One turn of the copy on a stream with an entry left. *)
Lemma copy_loop_cons (fuel : nat) (dst : sha256.digest) (buf : bytes)
    (er : option error) (steps : list (bytes * option error))
    (ce : option error) (lg : list io.event) (w : Z) :
  io.copy_loop (S fuel) dst (io.mkReadCloser ((buf, er) :: steps) ce lg) w
  = let '(dst1, w1) :=
      if (0 <? Datatypes.length buf)%nat
      then (sha256.Write dst buf, int64 (w + Z.of_nat (Datatypes.length buf)))
      else (dst, w) in
    let src1 :=
      io.mkReadCloser steps ce (lg ++ [io.EvRead (Datatypes.length buf) er]) in
    match er with
    | Some e => (dst1, src1, w1, if io.is_EOF e then None else Some e)
    | None => io.copy_loop fuel dst1 src1 w1
    end.
Proof. reflexivity. Qed.

(** Where the copy stops, whatever the destination and the count. *)
Lemma copy_loop_stop (steps : list (bytes * option error)) (ce : option error)
    (lg : list io.event) (dst : sha256.digest) (w : Z) :
  exists dst' lg' w',
    io.copy_loop (S (Datatypes.length steps)) dst (io.mkReadCloser steps ce lg) w
    = (dst', io.mkReadCloser (snd (delivered steps)) ce lg', w',
       if io.is_EOF (snd (fst (delivered steps))) then None
       else Some (snd (fst (delivered steps)))).
Proof.
  revert lg dst w; induction steps as [|[buf [e|]] steps IH]; intros lg dst w.
  - do 3 eexists; reflexivity.
  - cbn [Datatypes.length]; cbn [io.copy_loop]; unfold io.Read.
    cbn [io.script io.close_err io.log delivered fst snd].
    destruct (0 <? Datatypes.length buf)%nat; do 3 eexists; reflexivity.
  - cbn [Datatypes.length]; cbn [io.copy_loop]; unfold io.Read.
    cbn [io.script io.close_err io.log delivered].
    destruct (delivered steps) as [[data e] rest]; cbn [fst snd] in *.
    destruct (0 <? Datatypes.length buf)%nat; apply IH.
Qed.

(** What the copy leaves in the digest and in the count. *)
Lemma copy_loop_delivered (steps : list (bytes * option error))
    (ce : option error) (lg : list io.event) (dst : sha256.digest) (w : Z) :
  wf_digest dst ->
  0 <= w ->
  w + Z.of_nat (Datatypes.length (fst (fst (delivered steps))))
    < 9223372036854775808 ->
  fst (fst (fst (io.copy_loop (S (Datatypes.length steps)) dst
                   (io.mkReadCloser steps ce lg) w)))
  = sha256.Write dst (fst (fst (delivered steps)))
  /\ snd (fst (io.copy_loop (S (Datatypes.length steps)) dst
                 (io.mkReadCloser steps ce lg) w))
     = w + Z.of_nat (Datatypes.length (fst (fst (delivered steps)))).
Proof.
  revert lg dst w; induction steps as [|[buf er] steps IH]; intros lg dst w Hd Hw Hn.
  - cbn; rewrite (Write_nil dst Hd); split; [reflexivity | lia].
  - assert (Hstep :
      (if (0 <? Datatypes.length buf)%nat
       then (sha256.Write dst buf, int64 (w + Z.of_nat (Datatypes.length buf)))
       else (dst, w))
      = (sha256.Write dst buf, w + Z.of_nat (Datatypes.length buf))).
    { destruct buf as [|b buf]; [cbn; rewrite (Write_nil dst Hd); f_equal; lia|].
      replace (0 <? Datatypes.length (b :: buf))%nat with true by reflexivity.
      f_equal; apply int64_small.
      destruct er; cbn [delivered fst snd] in Hn;
        [|destruct (delivered steps) as [[data e] rest]; cbn [fst] in Hn;
          rewrite length_app in Hn]; lia. }
    cbn [Datatypes.length]; rewrite copy_loop_cons, Hstep.
    destruct er as [e|]; cbn [delivered fst snd]; [split; reflexivity|].
    cbn [delivered] in Hn.
    destruct (delivered steps) as [[data e] rest] eqn:Hdel; cbn [fst snd] in *.
    rewrite length_app, Nat2Z.inj_add in *.
    destruct (IH (lg ++ [io.EvRead (Datatypes.length buf) None])
                (sha256.Write dst buf) (w + Z.of_nat (Datatypes.length buf)))
      as [H1 H2]; [now apply Write_wf | lia | lia |].
    rewrite H1, H2, (Write_app dst buf data Hd); split; [reflexivity | lia].
Qed.

(** The copy does not look at the log nor at what [Close] will return. *)
Lemma copy_loop_indep (fuel : nat) (steps : list (bytes * option error))
    (ce ce' : option error) (lg lg' : list io.event) (dst : sha256.digest)
    (w : Z) :
  let r1 := io.copy_loop fuel dst (io.mkReadCloser steps ce lg) w in
  let r2 := io.copy_loop fuel dst (io.mkReadCloser steps ce' lg') w in
  fst (fst (fst r1)) = fst (fst (fst r2))
  /\ snd (fst r1) = snd (fst r2)
  /\ snd r1 = snd r2
  /\ io.script (snd (fst (fst r1))) = io.script (snd (fst (fst r2))).
Proof.
  cbv zeta; revert steps lg lg' dst w.
  induction fuel as [|fuel IH]; intros steps lg lg' dst w;
    [repeat split|].
  destruct steps as [|[buf er] steps]; [repeat split|].
  rewrite !copy_loop_cons.
  destruct (if (0 <? Datatypes.length buf)%nat then _ else _) as [dst1 w1].
  destruct er as [e|]; [repeat split | apply IH].
Qed.

End DigestFacts.

(** ** The digest of a stream *)

(** X8.  When the reads end with [io.EOF] (or with the script), the hash
    returned is the SHA-256 digest of the bytes delivered, in order and
    however the reads cut them, those delivered together with [io.EOF]
    included; the count is their number, which is supposed to fit an
    [int64]; and nothing behind the [io.EOF] is read. *)
Theorem SHA256_digest_of_content (steps : list (bytes * option error))
    (ce : option error) (lg : list io.event) :
  snd (fst (delivered steps)) = EOF ->
  Z.of_nat (Datatypes.length (fst (fst (delivered steps)))) < 9223372036854775808 ->
  fst (SHA256 (io.mkReadCloser steps ce lg))
  = (mkHash "sha256" (sha256_hex (fst (fst (delivered steps)))),
     Z.of_nat (Datatypes.length (fst (fst (delivered steps)))), None)
  /\ io.script (snd (SHA256 (io.mkReadCloser steps ce lg)))
     = snd (delivered steps).
Proof.
  intros He Hn; unfold SHA256, io.Copy; cbn [io.script].
  destruct (copy_loop_stop steps ce lg sha256.New 0) as (d & lg' & w & Hc).
  destruct (copy_loop_delivered steps ce lg sha256.New 0 New_wf (Z.le_refl 0) Hn)
    as [H1 H2].
  rewrite Hc in *; cbn [fst snd] in H1, H2; subst d w.
  rewrite He; cbn [io.is_EOF io.Close fst snd io.script].
  split; reflexivity.
Qed.

Lemma SHA256_digest_of_content_witness :
  fst (SHA256 (io.mkReadCloser
                 [(bytes_of_string "a", None); ([], None);
                  (bytes_of_string "bc", Some EOF); (bytes_of_string "zz", None)]
                 None []))
  = (mkHash "sha256" (sha256_hex (bytes_of_string "abc")), 3, None)
  /\ io.script (snd (SHA256 (io.mkReadCloser
                 [(bytes_of_string "a", None); ([], None);
                  (bytes_of_string "bc", Some EOF); (bytes_of_string "zz", None)]
                 None [])))
     = [(bytes_of_string "zz", None)].
Proof.
  apply (SHA256_digest_of_content
           [(bytes_of_string "a", None); ([], None);
            (bytes_of_string "bc", Some EOF); (bytes_of_string "zz", None)]
           None []); [reflexivity | vm_compute; reflexivity].
Defined.

(** X9.  When a read returns an error other than [io.EOF], [SHA256]
    returns that very error with the zero hash and a count of 0, and reads
    nothing behind it. *)
Theorem SHA256_read_error (steps : list (bytes * option error))
    (ce : option error) (lg : list io.event) :
  snd (fst (delivered steps)) <> EOF ->
  fst (SHA256 (io.mkReadCloser steps ce lg))
  = (zeroHash, 0, Some (snd (fst (delivered steps))))
  /\ io.script (snd (SHA256 (io.mkReadCloser steps ce lg)))
     = snd (delivered steps).
Proof.
  intros He; unfold SHA256, io.Copy; cbn [io.script].
  destruct (copy_loop_stop steps ce lg sha256.New 0) as (d & lg' & w & ->).
  destruct (snd (fst (delivered steps))); try contradiction;
    cbn [io.is_EOF io.Close fst snd io.script]; split; reflexivity.
Qed.

Lemma SHA256_read_error_witness :
  fst (SHA256 (io.mkReadCloser
                 [(bytes_of_string "abc", None);
                  (bytes_of_string "de", Some (ErrRead "reset"));
                  (bytes_of_string "zz", None)] None []))
  = (zeroHash, 0, Some (ErrRead "reset"))
  /\ io.script (snd (SHA256 (io.mkReadCloser
                 [(bytes_of_string "abc", None);
                  (bytes_of_string "de", Some (ErrRead "reset"));
                  (bytes_of_string "zz", None)] None [])))
     = [(bytes_of_string "zz", None)].
Proof.
  apply (SHA256_read_error
           [(bytes_of_string "abc", None);
            (bytes_of_string "de", Some (ErrRead "reset"));
            (bytes_of_string "zz", None)] None []).
  discriminate.
Defined.

(** X10.  The result of [SHA256] depends on what the reads return only:
    the error of [Close] is dropped, and the calls made on the stream before
    do not matter. *)
Theorem SHA256_ignores_Close_error (steps : list (bytes * option error))
    (ce ce' : option error) (lg lg' : list io.event) :
  fst (SHA256 (io.mkReadCloser steps ce lg))
  = fst (SHA256 (io.mkReadCloser steps ce' lg')).
Proof.
  unfold SHA256, io.Copy; cbn [io.script].
  destruct (copy_loop_indep (S (Datatypes.length steps)) steps ce ce' lg lg'
              sha256.New 0) as (H1 & H2 & H3 & _).
  destruct (io.copy_loop _ _ (io.mkReadCloser steps ce lg) _)
    as [[[d1 r1] n1] e1].
  destruct (io.copy_loop _ _ (io.mkReadCloser steps ce' lg') _)
    as [[[d2 r2] n2] e2].
  cbn [fst snd] in *; subst; reflexivity.
Qed.

(** X11.  A hash computed by [SHA256] can be written and read back: its
    text has 71 bytes and [NewHash] gives the hash back from it, and
    [UnmarshalJSON] gives it back from its [MarshalJSON]. *)
Theorem SHA256_result_reparses (r r' : io.ReadCloser) (v v0 : Hash) (n : Z) :
  SHA256 r = (v, n, None, r') ->
  String.length (String_ v) = 71%nat
  /\ NewHash (String_ v) = (v, None)
  /\ UnmarshalJSON v0 (fst (MarshalJSON v)) = (v, None).
Proof.
  intros H.
  assert (Hv : invariant v).
  { destruct (SHA256_result r) as (d & r1 & m & Hr & _); rewrite Hr in H.
    destruct (snd (io.Copy sha256.New r)); [discriminate|].
    injection H as <- _ _.
    destruct (EncodeToString_hex (sha256.Sum d [])) as [Hh HL].
    rewrite Sum_length in HL.
    split; [reflexivity | split; [exact Hh | intros _; exact HL]]. }
  split; [|split; [|now apply UnmarshalJSON_MarshalJSON]];
    destruct (invariant_text v Hv) as (hx & -> & -> & Hh & HL).
  - rewrite length_append, HL; reflexivity.
  - rewrite NewHash_parse, (parse_sha256_ok zeroHash hx HL Hh); reflexivity.
Qed.

Lemma SHA256_result_reparses_witness :
  String.length (String_ (mkHash "sha256" empty_sha256)) = 71%nat
  /\ NewHash (String_ (mkHash "sha256" empty_sha256))
     = (mkHash "sha256" empty_sha256, None)
  /\ UnmarshalJSON zeroHash (fst (MarshalJSON (mkHash "sha256" empty_sha256)))
     = (mkHash "sha256" empty_sha256, None).
Proof.
  apply (SHA256_result_reparses
           (io.mkReadCloser [] None [])
           (io.mkReadCloser [] None [io.EvRead 0 (Some EOF); io.EvClose])
           (mkHash "sha256" empty_sha256) zeroHash 0).
  vm_compute; reflexivity.
Defined.
